(** * ditherio: error-diffusion dithering (package [dither])

    A shallow embedding of [dither/dither.go] together with the parts of
    Go's [image], [image/color] and [image/draw] packages the code calls.

    Conventions.
    - Go's fixed-width integers are values of [Z]; every conversion and
      every operation that can wrap is written with its wrap-around
      ([uint8], [uint16], [uint32], [uint64], [int64]).
    - Go's [int] image coordinates are values of [Z]; overflow of
      coordinate arithmetic is not modelled.
    - [*image.RGBA] values live in a store ([Heap]) and are passed around
      as locations, so that aliasing between the source image and the
      buffer [Dither] allocates is visible.
    - A Go panic (slice index out of range, dereferencing a dangling
      location, allocating a rectangle of negative or huge size) is the
      result [None] of the state-and-failure monad [M]. *)

From Stdlib Require Import ZArith Lia List Bool.
From stdpp Require Import base tactics option list list_numbers.

Local Open Scope Z_scope.

(** ** Fixed-width integers *)

Definition uint8 (z : Z) : Z := z mod 2 ^ 8.
Definition uint16 (z : Z) : Z := z mod 2 ^ 16.
Definition uint32 (z : Z) : Z := z mod 2 ^ 32.
Definition uint64 (z : Z) : Z := z mod 2 ^ 64.
Definition int64 (z : Z) : Z := (z + 2 ^ 63) mod 2 ^ 64 - 2 ^ 63.

(** [int64] arithmetic as the Go code uses it. *)
Definition add64 (a b : Z) : Z := int64 (a + b).
Definition sub64 (a b : Z) : Z := int64 (a - b).
Definition mul64 (a b : Z) : Z := int64 (a * b).
Definition shl64 (a s : Z) : Z := int64 (Z.shiftl a s).
(** [>>] on a signed integer is the arithmetic shift. *)
Definition shr64 (a s : Z) : Z := Z.shiftr a s.

(** ** Package [image/color] *)

(** The concrete colour types that occur in the program.  [color_RGBA64]
    also stands for any other implementation of [color.Color], identified
    with what its [RGBA()] method returns. *)
Inductive Color : Type :=
| color_RGBA (R G B A : Z)      (* 8 bits per channel, alpha-premultiplied *)
| color_RGBA64 (R G B A : Z)    (* 16 bits per channel, alpha-premultiplied *)
| color_NRGBA64 (R G B A : Z)   (* 16 bits per channel, not premultiplied *)
| color_Gray16 (Y : Z).         (* 16-bit grey *)

(** The method [RGBA()] of [color.Color]: four [uint32] values. *)
Definition RGBA (c : Color) : Z * Z * Z * Z :=
  match c with
  | color_RGBA R G B A =>
      let r := uint32 R in let r := Z.lor r (uint32 (Z.shiftl r 8)) in
      let g := uint32 G in let g := Z.lor g (uint32 (Z.shiftl g 8)) in
      let b := uint32 B in let b := Z.lor b (uint32 (Z.shiftl b 8)) in
      let a := uint32 A in let a := Z.lor a (uint32 (Z.shiftl a 8)) in
      (r, g, b, a)
  | color_RGBA64 R G B A => (uint32 R, uint32 G, uint32 B, uint32 A)
  | color_NRGBA64 R G B A =>
      let r := uint32 R in let r := uint32 (r * uint32 A) in let r := r / 0xffff in
      let g := uint32 G in let g := uint32 (g * uint32 A) in let g := g / 0xffff in
      let b := uint32 B in let b := uint32 (b * uint32 A) in let b := b / 0xffff in
      (r, g, b, uint32 A)
  | color_Gray16 Y => let y := uint32 Y in (y, y, y, 0xffff)
  end.

(** [color.RGBAModel.Convert]. *)
Definition RGBAModel_Convert (c : Color) : Color :=
  match c with
  | color_RGBA _ _ _ _ => c
  | _ =>
      let '(r, g, b, a) := RGBA c in
      color_RGBA (uint8 (Z.shiftr r 8)) (uint8 (Z.shiftr g 8))
                 (uint8 (Z.shiftr b 8)) (uint8 (Z.shiftr a 8))
  end.

(** [color.Palette]: [sqDiff], [Index] and [Convert]. *)
Definition Palette : Type := list Color.

Definition sqDiff (x y : Z) : Z :=
  let d := uint32 (x - y) in
  Z.shiftr (uint32 (d * d)) 2.

Definition sqDiffSum (c v : Color) : Z :=
  let '(cr, cg, cb, ca) := RGBA c in
  let '(vr, vg, vb, va) := RGBA v in
  uint32 (uint32 (uint32 (sqDiff cr vr + sqDiff cg vg) + sqDiff cb vb) + sqDiff ca va).

(** The loop of [Palette.Index]: [i] is the index of the head of [p],
    [ret] and [bestSum] the loop's variables. *)
Fixpoint Index_from (c : Color) (p : Palette) (i ret bestSum : Z) : Z :=
  match p with
  | [] => ret
  | v :: p' =>
      let sum := sqDiffSum c v in
      if sum <? bestSum then
        if sum =? 0 then i
        else Index_from c p' (i + 1) i sum
      else Index_from c p' (i + 1) ret bestSum
  end.

Definition Palette_Index (p : Palette) (c : Color) : Z :=
  Index_from c p 0 0 (2 ^ 32 - 1).

(** [Palette.Convert] returns the nil interface value ([None]) on an empty
    palette. *)
Definition Palette_Convert (p : Palette) (c : Color) : option Color :=
  if Z.of_nat (length p) =? 0 then None
  else p !! Z.to_nat (Palette_Index p c).

(** ** Package [dither]: colour arithmetic *)

Record RGBAVec : Type := mkRGBAVec { R : Z; G : Z; B : Z; A : Z }.

Definition clamp (val min max : Z) : Z :=
  if val >? max then max
  else if val <? min then min
  else val.

Definition makeColor (r g b a : Z) : Color :=
  let r := clamp r 0 0xFFFF in
  let g := clamp g 0 0xFFFF in
  let b := clamp b 0 0xFFFF in
  let a := clamp a 0 0xFFFF in
  color_NRGBA64 (uint16 r) (uint16 g) (uint16 b) (uint16 a).

(** The error share added to one channel by the four-neighbour kernel:
    [(err.R*int64(mul))>>4]. *)
Definition shareFloydSteinberg (e mul : Z) : Z := shr64 (mul64 e (int64 mul)) 4.

Definition applyWeightsFloydSteinber (orig : Color) (err : RGBAVec) (mul : Z) : Color :=
  let '(oR, oG, oB, oA) := RGBA orig in
  let nR := add64 (int64 oR) (shareFloydSteinberg (R err) mul) in
  let nG := add64 (int64 oG) (shareFloydSteinberg (G err) mul) in
  let nB := add64 (int64 oB) (shareFloydSteinberg (B err) mul) in
  let nA := add64 (int64 oA) (shareFloydSteinberg (A err) mul) in
  makeColor nR nG nB nA.

(** The error share added to one channel by the seven-neighbour kernel:
    [(err.R<<uint64(mul))>>5]. *)
Definition shareBurkes (e mul : Z) : Z := shr64 (shl64 e (uint64 mul)) 5.

Definition applyWeightsBurkes (orig : Color) (err : RGBAVec) (mul : Z) : Color :=
  let '(oR, oG, oB, oA) := RGBA orig in
  let nR := add64 (int64 oR) (shareBurkes (R err) mul) in
  let nG := add64 (int64 oG) (shareBurkes (G err) mul) in
  let nB := add64 (int64 oB) (shareBurkes (B err) mul) in
  let nA := add64 (int64 oA) (shareBurkes (A err) mul) in
  makeColor nR nG nB nA.

Definition colorDiff (a b : Color) : RGBAVec :=
  let '(aR, aG, aB, aA) := RGBA a in
  let '(bR, bG, bB, bA) := RGBA b in
  {| R := sub64 (int64 aR) (int64 bR);
     G := sub64 (int64 aG) (int64 bG);
     B := sub64 (int64 aB) (int64 bB);
     A := sub64 (int64 aA) (int64 bA) |}.

(** ** Package [dither]: palette strategies *)

Definition ColorFinder : Type := Color -> Color.

Definition BlackAndWhitePalette (c : Color) : Color :=
  let '(r, g, b, _) := RGBA c in
  let gray := uint64 (uint64 (uint64 r + uint64 g) + uint64 b) / 3 in
  let gray := if gray <? Z.shiftr 0xFFFF 1 then 0 else 0xFFFF in
  color_Gray16 (uint16 gray).

(** The tables [palette.WebSafe] and [palette.Plan9] belong to Go's
    standard library; the strategies are stated over them as parameters. *)
Section FixedPalettes.
Variables WebSafe Plan9 : Palette.

Definition WebSafePalette (c : Color) : option Color := Palette_Convert WebSafe c.
Definition Plan9Palette (c : Color) : option Color := Palette_Convert Plan9 c.
End FixedPalettes.

(** ** Package [image]: points, rectangles and RGBA buffers *)

Record Point : Type := mkPoint { X : Z; Y : Z }.
Record Rectangle : Type := mkRectangle { Min : Point; Max : Point }.

Definition Dx (r : Rectangle) : Z := X (Max r) - X (Min r).
Definition Dy (r : Rectangle) : Z := Y (Max r) - Y (Min r).

(** [Point.In]. *)
Definition Point_In (p : Point) (r : Rectangle) : bool :=
  (X (Min r) <=? X p) && (X p <? X (Max r)) &&
  (Y (Min r) <=? Y p) && (Y p <? Y (Max r)).

(** The struct [image.RGBA]: [Pix] holds the pixels in R, G, B, A order. *)
Record image_RGBA : Type := mkRGBA { Pix : list Z; Stride : Z; Rect : Rectangle }.

Definition PixOffset (p : image_RGBA) (x y : Z) : Z :=
  (y - Y (Min (Rect p))) * Stride p + (x - X (Min (Rect p))) * 4.

(** [RGBAAt] on the struct: the zero colour outside [Rect], a panic when
    the slice [Pix[i:i+4:i+4]] is out of range. *)
Definition RGBAAt (p : image_RGBA) (x y : Z) : option Color :=
  if negb (Point_In (mkPoint x y) (Rect p)) then Some (color_RGBA 0 0 0 0)
  else
    let i := PixOffset p x y in
    if i <? 0 then None
    else
      s0 ← Pix p !! Z.to_nat i;
      s1 ← Pix p !! Z.to_nat (i + 1);
      s2 ← Pix p !! Z.to_nat (i + 2);
      s3 ← Pix p !! Z.to_nat (i + 3);
      Some (color_RGBA s0 s1 s2 s3).

(** [Set] on the struct: nothing outside [Rect]; each byte store wraps to
    [uint8]. *)
Definition RGBASet (p : image_RGBA) (x y : Z) (c : Color) : option image_RGBA :=
  if negb (Point_In (mkPoint x y) (Rect p)) then Some p
  else
    let i := PixOffset p x y in
    match RGBAModel_Convert c with
    | color_RGBA c1R c1G c1B c1A =>
        if (i <? 0) || (Z.of_nat (length (Pix p)) <? i + 4) then None
        else
          Some {| Pix := <[Z.to_nat (i + 3) := uint8 c1A]>
                        (<[Z.to_nat (i + 2) := uint8 c1B]>
                        (<[Z.to_nat (i + 1) := uint8 c1G]>
                        (<[Z.to_nat i := uint8 c1R]> (Pix p))));
                  Stride := Stride p;
                  Rect := Rect p |}
    | _ => None
    end.

(** ** The store and its monad *)

Abbreviation loc := nat (only parsing).
Abbreviation Heap := (list image_RGBA) (only parsing).

Definition M (T : Type) : Type := Heap → option (T * Heap).

#[global] Instance M_ret : MRet M := λ T a h, Some (a, h).
#[global] Instance M_bind : MBind M := λ T U f m h,
  match m h with
  | Some (a, h') => f a h'
  | None => None
  end.

Definition panic {T : Type} : M T := λ _, None.

Definition deref (p : loc) : M image_RGBA := λ h,
  match h !! p with
  | Some b => Some (b, h)
  | None => None
  end.

Definition assign (p : loc) (b : image_RGBA) : M unit := λ h,
  match h !! p with
  | Some _ => Some (tt, <[p := b]> h)
  | None => None
  end.

Definition alloc (b : image_RGBA) : M loc := λ h, Some (length h, h ++ [b]).

Definition lift {T : Type} (o : option T) : M T := λ h,
  match o with
  | Some a => Some (a, h)
  | None => None
  end.

(** [for i := lo; i < hi; i++ { body i }]. *)
Fixpoint for_loop (n : nat) (i : Z) (body : Z → M unit) : M unit :=
  match n with
  | O => mret tt
  | S n' => body i;; for_loop n' (i + 1) body
  end.

Definition for_range (lo hi : Z) (body : Z → M unit) : M unit :=
  for_loop (Z.to_nat (hi - lo)) lo body.

(** [image.mul3NonNeg]: [x*y*z], or [-1] when an argument is negative or
    the product overflows [int].  [bits.Mul64] returns the two halves of
    the 128-bit product. *)
Definition mul3NonNeg (x y z : Z) : Z :=
  if (x <? 0) || (y <? 0) || (z <? 0) then -1
  else
    let hi := uint64 x * uint64 y / 2 ^ 64 in
    let lo := uint64 (uint64 x * uint64 y) in
    if negb (hi =? 0) then -1
    else
      let hi := lo * uint64 z / 2 ^ 64 in
      let lo := uint64 (lo * uint64 z) in
      if negb (hi =? 0) then -1
      else
        let a := int64 lo in
        if a <? 0 then -1 else a.

(** [image.pixelBufferLength]: panics when [mul3NonNeg] reports a negative
    or huge rectangle. *)
Definition pixelBufferLength (bytesPerPixel : Z) (r : Rectangle) : M Z :=
  let totalLength := mul3NonNeg bytesPerPixel (Dx r) (Dy r) in
  if totalLength <? 0 then panic else mret totalLength.

(** [image.NewRGBA]: panics on a rectangle of negative width or height and
    on one whose buffer length [4 * Dx * Dy] does not fit in [int].  The
    store itself is unbounded: running out of memory is not modelled. *)
Definition NewRGBA (r : Rectangle) : M loc :=
  n ← pixelBufferLength 4 r;
  alloc {| Pix := replicate (Z.to_nat n) 0;
           Stride := int64 (4 * Dx r);
           Rect := r |}.

(** The methods of [*image.RGBA]. *)
Definition RGBA_Bounds (p : loc) : M Rectangle := b ← deref p; mret (Rect b).

Definition RGBA_At (p : loc) (x y : Z) : M Color :=
  b ← deref p; lift (RGBAAt b x y).

Definition RGBA_Set (p : loc) (x y : Z) (c : Color) : M unit :=
  b ← deref p; b' ← lift (RGBASet b x y c); assign p b'.

(** A value of the interface [image.Image]: a [*image.RGBA], or any
    other implementation that is not changed while [Dither] runs, given
    by its bounds and its [At]. *)
Inductive Image : Type :=
| Image_RGBA (p : loc)
| Image_Func (bounds : Rectangle) (at_ : Z → Z → Color).

Definition Image_Bounds (img : Image) : M Rectangle :=
  match img with
  | Image_RGBA p => RGBA_Bounds p
  | Image_Func bounds _ => mret bounds
  end.

Definition Image_At (img : Image) (x y : Z) : M Color :=
  match img with
  | Image_RGBA p => RGBA_At p x y
  | Image_Func _ at_ => mret (at_ x y)
  end.

(** One channel of the general path of [draw.Draw] ([drawRGBA] with the
    operator [Src] and no mask): [uint8(sr * ma / m >> 8)] in [uint32]
    arithmetic, where [ma = m = 0xffff]. *)
Definition draw_channel (s : Z) : Z :=
  uint8 (Z.shiftr (uint32 (s * 0xffff) / 0xffff) 8).

(** The pixel [draw.Draw] writes for the source pixel [c].  From a
    [*image.RGBA] source the four bytes are copied ([drawCopySrc]); from
    any other source each channel of [c.RGBA()] goes through
    [draw_channel].  (The library has shorter paths for some of its own
    image types; they write the high byte of each channel, as
    [draw_channel] does on every channel within [[0, 0xffff]].) *)
Definition drawn (src : Image) (c : Color) : Color :=
  match src with
  | Image_RGBA _ => c
  | Image_Func _ _ =>
      let '(sr, sg, sb, sa) := RGBA c in
      color_RGBA (draw_channel sr) (draw_channel sg) (draw_channel sb) (draw_channel sa)
  end.

(** [draw.Draw(dst, r, src, sp, draw.Src)] on a [*image.RGBA] destination,
    for an [r] inside the bounds of both images (as in [Dither], where
    clipping changes nothing): every pixel of [r] receives the four bytes
    of [drawn] for the source pixel. *)
Definition draw_Draw_Src (dst : loc) (r : Rectangle) (src : Image) (sp : Point) : M unit :=
  for_range (Y (Min r)) (Y (Max r)) (λ y,
    for_range (X (Min r)) (X (Max r)) (λ x,
      c ← Image_At src (X sp + (x - X (Min r))) (Y sp + (y - Y (Min r)));
      RGBA_Set dst x y (drawn src c))).

(** ** Package [dither]: the engine and the kernels *)

Definition Algo : Type := Z → Z → loc → RGBAVec → M unit.

Definition Dither (img : Image) (algo : Algo) (find : ColorFinder) : M loc :=
  rect ← Image_Bounds img;
  dithered ← NewRGBA rect;
  draw_Draw_Src dithered rect img (Min rect);;
  for_range (Y (Min rect)) (Y (Max rect)) (λ y,
    for_range (X (Min rect)) (X (Max rect)) (λ x,
      oldPixel ← RGBA_At dithered x y;
      let newPixel := find oldPixel in
      RGBA_Set dithered x y newPixel;;
      let diff := colorDiff oldPixel newPixel in
      algo x y dithered diff));;
  mret dithered.

Definition FloydSteinberg : Algo := λ x y img err,
  (c ← RGBA_At img (x + 1) y; RGBA_Set img (x + 1) y (applyWeightsFloydSteinber c err 7));;
  (c ← RGBA_At img (x + 1) (y + 1); RGBA_Set img (x + 1) (y + 1) (applyWeightsFloydSteinber c err 1));;
  (c ← RGBA_At img x (y + 1); RGBA_Set img x (y + 1) (applyWeightsFloydSteinber c err 5));;
  (c ← RGBA_At img (x - 1) (y + 1); RGBA_Set img (x - 1) (y + 1) (applyWeightsFloydSteinber c err 3)).

Definition Burkes : Algo := λ x y img err,
  (c ← RGBA_At img (x + 1) y; RGBA_Set img (x + 1) y (applyWeightsBurkes c err 3));;
  (c ← RGBA_At img (x + 2) y; RGBA_Set img (x + 2) y (applyWeightsBurkes c err 2));;
  (c ← RGBA_At img (x - 2) (y + 1); RGBA_Set img (x - 2) (y + 1) (applyWeightsBurkes c err 1));;
  (c ← RGBA_At img (x - 1) (y + 1); RGBA_Set img (x - 1) (y + 1) (applyWeightsBurkes c err 2));;
  (c ← RGBA_At img x (y + 1); RGBA_Set img x (y + 1) (applyWeightsBurkes c err 3));;
  (c ← RGBA_At img (x + 1) (y + 1); RGBA_Set img (x + 1) (y + 1) (applyWeightsBurkes c err 2));;
  (c ← RGBA_At img (x + 2) (y + 1); RGBA_Set img (x + 2) (y + 1) (applyWeightsBurkes c err 1)).

(** * Vocabulary of the properties *)

Definition is_uint32 (z : Z) : Prop := 0 ≤ z < 2 ^ 32.

Definition alphaOf (c : Color) : Z := let '(_, _, _, a) := RGBA c in a.

Definition is_byte (v : Z) : bool := (0 <=? v) && (v <? 256).

Definition is_rgba8 (c : Color) : bool :=
  match c with
  | color_RGBA r g b a => is_byte r && is_byte g && is_byte b && is_byte a
  | _ => false
  end.

(** What the strategies need of a palette table: it is not empty and its
    entries are [color.RGBA] values (both hold of [palette.WebSafe] and
    [palette.Plan9]). *)
Definition table_ok (p : Palette) : bool :=
  negb (Z.of_nat (length p) =? 0) && forallb is_rgba8 p.

(** The 216 colours of [palette.WebSafe]: the six levels per channel, red
    slowest, all opaque. *)
Definition WebSafe_levels : list Z := [0x00; 0x33; 0x66; 0x99; 0xcc; 0xff].

Definition WebSafe_table : Palette :=
  flat_map (λ r, flat_map (λ g, map (λ b, color_RGBA r g b 0xff) WebSafe_levels)
                          WebSafe_levels) WebSafe_levels.

(** A small table of greys, standing for any other palette. *)
Definition gray_ramp : Palette :=
  [color_RGBA 0 0 0 255; color_RGBA 85 85 85 255; color_RGBA 170 170 170 255;
   color_RGBA 255 255 255 255].

(** The layout [image.NewRGBA] establishes: one row is [4 * Dx] bytes, the
    buffer holds [Dy] rows, and every element of [Pix] is a byte. *)
Definition wf_buf (b : image_RGBA) : bool :=
  (0 <=? Dx (Rect b)) && (0 <=? Dy (Rect b)) &&
  (Stride b =? 4 * Dx (Rect b)) &&
  (Z.of_nat (length (Pix b)) =? 4 * Dx (Rect b) * Dy (Rect b)) &&
  forallb is_byte (Pix b).

(** What [Set] stores for a colour: its conversion by the RGBA colour
    model, each channel a byte. *)
Definition stored (c : Color) : Color :=
  match RGBAModel_Convert c with
  | color_RGBA r g b a => color_RGBA (uint8 r) (uint8 g) (uint8 b) (uint8 a)
  | c' => c'
  end.

(** A buffer every pixel of which can be read: [At] stays inside [Pix]
    (every buffer laid out by [NewRGBA] is one, and so is a sub-image). *)
Definition readable (b : image_RGBA) : Prop :=
  ∀ x y, Point_In (mkPoint x y) (Rect b) = true →
         0 ≤ PixOffset b x y ∧ PixOffset b x y + 4 ≤ Z.of_nat (length (Pix b)).

(** Total-correctness triples for one cell of the store: started in [h0]
    with cell [p] holding a buffer that satisfies [P], the computation [m]
    does not panic, changes no other cell, and leaves in [p] a buffer that
    satisfies [Q] of its result. *)
Definition triple (h0 : Heap) (p : loc) {T : Type}
    (P : image_RGBA → Prop) (m : M T) (Q : T → image_RGBA → Prop) : Prop :=
  ∀ b, P b → ∃ a b', m (<[p := b]> h0) = Some (a, <[p := b']> h0) ∧ Q a b'.

(** What the engine needs of a kernel: called on a buffer laid out by
    [NewRGBA] it does not panic, changes only that buffer and keeps its
    layout.  A forward kernel ([fwd = true]) moreover leaves alone every
    pixel at or before the current one in raster order. *)
Definition kernel_spec (fwd : bool) (algo : Algo) : Prop :=
  ∀ x y (p : loc) err (h : Heap) b,
    h !! p = Some b → wf_buf b = true →
    ∃ b', algo x y p err h = Some (tt, <[p := b']> h) ∧
          wf_buf b' = true ∧ Rect b' = Rect b ∧
          (fwd = true → ∀ x' y', y' < y ∨ (y' = y ∧ x' ≤ x) →
                                 RGBAAt b' x' y' = RGBAAt b x' y').

Definition safe_kernel : Algo → Prop := kernel_spec false.

Definition forward_kernel : Algo → Prop := kernel_spec true.

(** A kernel as a table of entries [(dx, dy, mul)], applied in order:
    the neighbour at [(x + dx, y + dy)] is read, adjusted by [app] with
    the entry's [mul], and written back. *)
Fixpoint diffuse (app : Color → RGBAVec → Z → Color) (tbl : list (Z * Z * Z))
    (x y : Z) (img : loc) (err : RGBAVec) : M unit :=
  match tbl with
  | [] => mret tt
  | (dx, dy, mul) :: tbl' =>
      (c ← RGBA_At img (x + dx) (y + dy);
       RGBA_Set img (x + dx) (y + dy) (app c err mul));;
      diffuse app tbl' x y img err
  end.

Definition FloydSteinberg_table : list (Z * Z * Z) :=
  [(1, 0, 7); (1, 1, 1); (0, 1, 5); (-1, 1, 3)].

Definition Burkes_table : list (Z * Z * Z) :=
  [(1, 0, 3); (2, 0, 2); (-2, 1, 1); (-1, 1, 2); (0, 1, 3); (1, 1, 2); (2, 1, 1)].

(** The [mul] of the first entry at offset [(dx, dy)]. *)
Fixpoint weight_at (tbl : list (Z * Z * Z)) (dx dy : Z) : option Z :=
  match tbl with
  | [] => None
  | (dx', dy', mul) :: tbl' =>
      if (dx =? dx') && (dy =? dy') then Some mul else weight_at tbl' dx dy
  end.

Fixpoint distinct_offsets (tbl : list (Z * Z * Z)) : bool :=
  match tbl with
  | [] => true
  | (dx, dy, _) :: tbl' =>
      match weight_at tbl' dx dy with
      | None => distinct_offsets tbl'
      | Some _ => false
      end
  end.

(** Every offset points at a pixel after the current one in raster order. *)
Definition forward_offsets (tbl : list (Z * Z * Z)) : bool :=
  forallb (λ '(dx, dy, _), (0 <? dy) || ((dy =? 0) && (0 <? dx))) tbl.

(** A rectangle [image.NewRGBA] accepts: it is well-formed (zero width or
    height included), and the row length [4 * Dx] and the buffer length
    [4 * Dx * Dy] fit in [int]. *)
Definition fits_int (r : Rectangle) : bool :=
  (0 <=? Dx r) && (0 <=? Dy r) && (4 * Dx r <? 2 ^ 63) && (4 * Dx r * Dy r <? 2 ^ 63).

(** A source image [Dither] can copy: its bounds are a rectangle
    [image.NewRGBA] accepts ([fits_int]), and it is a [*image.RGBA] of the
    store with all its pixels inside [Pix], or an image given by its
    bounds and [At]. *)
Definition img_ok (h : Heap) (img : Image) : Prop :=
  match img with
  | Image_RGBA s =>
      ∃ b, h !! s = Some b ∧ fits_int (Rect b) = true ∧ readable b
  | Image_Func r _ => fits_int r = true
  end.

(** Every channel of [c.RGBA()] is within [[0, 0xffff]], as the interface
    [color.Color] asks of its implementations. *)
Definition channels16 (c : Color) : bool :=
  let '(r, g, b, a) := RGBA c in
  (r <=? 0xffff) && (g <=? 0xffff) && (b <=? 0xffff) && (a <=? 0xffff).

(** An image with the bounds of [image.Uniform]: two thousand million
    pixels each way. *)
Definition uniform_sized : Image :=
  Image_Func (mkRectangle (mkPoint (-1000000000) (-1000000000))
                          (mkPoint 1000000000 1000000000))
             (λ _ _, color_RGBA 255 255 255 255).

(** The buffer [NewRGBA] allocates. *)
Definition zero_buf (r : Rectangle) : image_RGBA :=
  {| Pix := replicate (Z.to_nat (4 * Dx r * Dy r)) 0; Stride := 4 * Dx r; Rect := r |}.

Definition pure_black : Color := color_RGBA 0 0 0 255.

Definition pure_white : Color := color_RGBA 255 255 255 255.

(** The spec's formula for one kernel entry (section 4.3): per channel,
    [current + (error * weight) >> shift], then [makeColor]. *)
Definition spec_weighted (orig : Color) (err : RGBAVec) (weight shift : Z) : Color :=
  let '(oR, oG, oB, oA) := RGBA orig in
  makeColor (oR + Z.shiftr (R err * weight) shift) (oG + Z.shiftr (G err * weight) shift)
            (oB + Z.shiftr (B err * weight) shift) (oA + Z.shiftr (A err * weight) shift).

(** The adjustment of a neighbour as the spec states it, in plain
    arithmetic: the error times [num / den], rounded down, is added to the
    channel and the sum is brought into [[0, 65535]]. *)
Definition saturate16 (v : Z) : Z := Z.max 0 (Z.min v 65535).

Definition spec_share (orig : Color) (err : RGBAVec) (num den : Z) : Color :=
  let '(oR, oG, oB, oA) := RGBA orig in
  color_NRGBA64 (saturate16 (oR + R err * num / den)) (saturate16 (oG + G err * num / den))
                (saturate16 (oB + B err * num / den)) (saturate16 (oA + A err * num / den)).

(** The numerators as the claim lists them, and as the code has them. *)
Definition Burkes_numerators_claimed : list (Z * Z * Z) :=
  [(1, 0, 4); (2, 0, 2); (-2, 1, 1); (-1, 1, 2); (0, 1, 3); (1, 1, 2); (2, 1, 1)].

Definition Burkes_numerators : list (Z * Z * Z) :=
  [(1, 0, 8); (2, 0, 4); (-2, 1, 2); (-1, 1, 4); (0, 1, 8); (1, 1, 4); (2, 1, 2)].

Definition sum_numerators (tbl : list (Z * Z * Z)) : Z :=
  fold_right (λ '(_, _, n) acc, n + acc) 0 tbl.

(** The errors the arithmetic cannot overflow on; every error the engine
    hands to a kernel is one ([colorDiff_in_range]). *)
Definition err_in_range (err : RGBAVec) : Prop :=
  (- 2 ^ 32 ≤ R err ≤ 2 ^ 32) ∧ (- 2 ^ 32 ≤ G err ≤ 2 ^ 32) ∧
  (- 2 ^ 32 ≤ B err ≤ 2 ^ 32) ∧ (- 2 ^ 32 ≤ A err ≤ 2 ^ 32).

(** [b'] is [b] after a kernel table was applied at [(x, y)]: an inside
    pixel at an offset of the table holds its old value adjusted with the
    entry's [mul]; every other pixel holds its old value. *)
Definition diffused (app : Color → RGBAVec → Z → Color) (tbl : list (Z * Z * Z))
    (err : RGBAVec) (x y : Z) (b b' : image_RGBA) : Prop :=
  ∀ x' y', RGBAAt b' x' y' =
           match (if Point_In (mkPoint x' y') (Rect b)
                  then weight_at tbl (x' - x) (y' - y) else None) with
           | Some mul => c ← RGBAAt b x' y'; Some (stored (app c err mul))
           | None => RGBAAt b x' y'
           end.

(** The 2 x 2 image [white, black; black, white], an image of zero width,
    and two small buffers. *)
Definition checker (x y : Z) : Color :=
  if (x + y) mod 2 =? 0 then pure_white else pure_black.

Definition checker_2x2 : Image :=
  Image_Func (mkRectangle (mkPoint 0 0) (mkPoint 2 2)) checker.

Definition empty_strip : Image :=
  Image_Func (mkRectangle (mkPoint 3 5) (mkPoint 3 9)) checker.

Definition one_pixel : image_RGBA :=
  mkRGBA [128; 128; 128; 255] 4 (mkRectangle (mkPoint 0 0) (mkPoint 1 1)).

Definition two_pixels : image_RGBA :=
  mkRGBA [10; 20; 30; 255; 200; 210; 220; 255] 8 (mkRectangle (mkPoint 0 0) (mkPoint 2 1)).

(** A buffer of 3 x 2 opaque pixels; at its pixel [(2, 0)] some offsets
    of either kernel fall inside the bounds and some outside. *)
Definition three_by_two : image_RGBA :=
  mkRGBA [10; 20; 30; 255;     40; 50; 60; 255;     70; 80; 90; 255;
          100; 110; 120; 255;  130; 140; 150; 255;  160; 170; 180; 255]
         12 (mkRectangle (mkPoint 0 0) (mkPoint 3 2)).

(** The invariant of the pass at pixel [(x, y)]: the layout is kept and,
    under a forward kernel, every pixel visited before holds what [Set]
    stored for an output of the strategy. *)
Definition pass_invariant (fwd : bool) (find : ColorFinder) (rect : Rectangle)
    (x y : Z) (b : image_RGBA) : Prop :=
  wf_buf b = true ∧ Rect b = rect ∧
  (fwd = true → ∀ x' y', Point_In (mkPoint x' y') rect = true →
                         y' < y ∨ (y' = y ∧ x' < x) →
                         ∃ c, RGBAAt b x' y' = Some (stored (find c))).

(** The error vector of a pixel the strategy reproduces exactly. *)
Definition zero_err : RGBAVec := mkRGBAVec 0 0 0 0.

(** A fully opaque pixel of an RGBA buffer. *)
Definition is_opaque (c : Color) : bool :=
  match c with
  | color_RGBA _ _ _ a => a =? 255
  | _ => false
  end.

(** The sum of the three colour channels, which the monochrome strategy
    averages. *)
Definition rgbSum (c : Color) : Z := let '(r, g, b, _) := RGBA c in r + g + b.

(** Every pixel inside the bounds is fully opaque. *)
Definition opaque_buf (b : image_RGBA) : Prop :=
  ∀ x y c, Point_In (mkPoint x y) (Rect b) = true → RGBAAt b x y = Some c →
           is_opaque c = true.

(** A kernel that, handed a zero error on an opaque buffer laid out by
    [NewRGBA], does not panic, changes only that buffer and leaves every
    pixel as it reads. *)
Definition neutral_kernel (algo : Algo) : Prop :=
  ∀ x y (p : loc) (h : Heap) b,
    h !! p = Some b → wf_buf b = true → opaque_buf b →
    ∃ b', algo x y p zero_err h = Some (tt, <[p := b']> h) ∧
          wf_buf b' = true ∧ Rect b' = Rect b ∧
          ∀ x' y', RGBAAt b' x' y' = RGBAAt b x' y'.

(** A pixel the strategy reproduces: it is opaque, the strategy's answer
    has the same channels, and [Set] stores that answer as the pixel. *)
Definition reproduced (find : ColorFinder) (c : Color) : Prop :=
  is_opaque c = true ∧ stored (find c) = c ∧ RGBA (find c) = RGBA c.

(** The buffer is a copy of the source: every inside pixel holds what
    [draw.Draw] writes for the source pixel. *)
Definition copy_of (h : Heap) (img : Image) (rect : Rectangle) (b : image_RGBA) : Prop :=
  wf_buf b = true ∧ Rect b = rect ∧
  ∀ x y c, Point_In (mkPoint x y) rect = true →
           Image_At img x y h = Some (c, h) → RGBAAt b x y = Some (stored (drawn img c)).

(** The invariant of [draw.Draw] at pixel [(x, y)]: the pixels before it
    in raster order are copied. *)
Definition draw_invariant (h : Heap) (img : Image) (rect : Rectangle)
    (x y : Z) (b : image_RGBA) : Prop :=
  wf_buf b = true ∧ Rect b = rect ∧
  ∀ x' y' c, Point_In (mkPoint x' y') rect = true →
             y' < y ∨ (y' = y ∧ x' < x) →
             Image_At img x' y' h = Some (c, h) →
             RGBAAt b x' y' = Some (stored (drawn img c)).

(** The invariant of the pass at pixel [(x, y)] for the first pixel of the
    image: it holds [before] until it is visited and [after] from then on. *)
Definition first_pixel_invariant (rect : Rectangle) (before after : Color)
    (x y : Z) (b : image_RGBA) : Prop :=
  wf_buf b = true ∧ Rect b = rect ∧
  (y = Y (Min rect) ∧ x = X (Min rect) →
   RGBAAt b (X (Min rect)) (Y (Min rect)) = Some before) ∧
  (Y (Min rect) < y ∨ (y = Y (Min rect) ∧ X (Min rect) < x) →
   RGBAAt b (X (Min rect)) (Y (Min rect)) = Some after).

(** An opaque grey image of 3 x 2 pixels. *)
Definition grey_3x2 : Image :=
  Image_Func (mkRectangle (mkPoint 0 0) (mkPoint 3 2)) (λ _ _, color_RGBA 100 100 100 255).

(** * Properties *)

(** ** Integer facts *)

Lemma uint8_range z : 0 ≤ uint8 z < 256.
Proof. unfold uint8. apply Z.mod_pos_bound. lia. Qed.

Lemma uint32_range z : 0 ≤ uint32 z < 2 ^ 32.
Proof. unfold uint32. apply Z.mod_pos_bound. lia. Qed.

Lemma uint32_small z : 0 ≤ z < 2 ^ 32 → uint32 z = z.
Proof. intros. unfold uint32. apply Z.mod_small. lia. Qed.

Lemma uint64_small z : 0 ≤ z < 2 ^ 64 → uint64 z = z.
Proof. intros. unfold uint64. apply Z.mod_small. lia. Qed.

Lemma int64_small z : - 2 ^ 63 ≤ z < 2 ^ 63 → int64 z = z.
Proof. intros. unfold int64. rewrite Z.mod_small; lia. Qed.

Lemma lor_range a b n : 0 < n → 0 ≤ a < 2 ^ n → 0 ≤ b < 2 ^ n → 0 ≤ Z.lor a b < 2 ^ n.
Proof.
  intros Hn Ha Hb.
  assert (H0 : 0 ≤ Z.lor a b) by (apply Z.lor_nonneg; lia).
  split; [exact H0|].
  destruct (Z.eq_dec (Z.lor a b) 0) as [->|Hne]; [lia|].
  apply Z.log2_lt_pow2; [lia|].
  rewrite Z.log2_lor by lia.
  assert (Hlog : ∀ c, 0 ≤ c < 2 ^ n → Z.log2 c < n).
  { intros c Hc. destruct (Z.eq_dec c 0) as [->|]; [exact Hn|].
    apply Z.log2_lt_pow2; lia. }
  apply Z.max_lub_lt; apply Hlog; assumption.
Qed.

(** Every channel returned by [RGBA()] is a [uint32]. *)
Lemma RGBA_range c :
  let '(r, g, b, a) := RGBA c in
  is_uint32 r ∧ is_uint32 g ∧ is_uint32 b ∧ is_uint32 a.
Proof.
  unfold is_uint32.
  destruct c as [r g b a|r g b a|r g b a|y]; cbn [RGBA].
  - split; [|split; [|split]]; apply lor_range; try lia; apply uint32_range.
  - split; [|split; [|split]]; apply uint32_range.
  - pose proof (uint32_range (uint32 r * uint32 a)).
    pose proof (uint32_range (uint32 g * uint32 a)).
    pose proof (uint32_range (uint32 b * uint32 a)).
    pose proof (uint32_range a).
    repeat split; try lia;
      try (apply Z.div_pos; lia);
      try (apply Z.div_lt_upper_bound; lia).
  - pose proof (uint32_range y). repeat split; lia.
Qed.

(** ** The monochrome strategy *)

Lemma BlackAndWhitePalette_mean c :
  let '(r, g, b, _) := RGBA c in
  BlackAndWhitePalette c =
    color_Gray16 (if (r + g + b) / 3 <? 65535 / 2 then 0 else 65535).
Proof.
  pose proof (RGBA_range c) as Hr. unfold BlackAndWhitePalette.
  destruct (RGBA c) as [[[r g] b] a]. unfold is_uint32 in Hr.
  rewrite (uint64_small r), (uint64_small g), (uint64_small b) by lia.
  rewrite (uint64_small (r + g)), (uint64_small (r + g + b)) by lia.
  change (Z.shiftr 65535 1) with 32767. change (65535 / 2) with 32767.
  destruct ((r + g + b) / 3 <? 32767); reflexivity.
Qed.

Lemma BlackAndWhitePalette_cases c :
  BlackAndWhitePalette c = color_Gray16 0 ∨ BlackAndWhitePalette c = color_Gray16 65535.
Proof.
  pose proof (BlackAndWhitePalette_mean c) as H.
  destruct (RGBA c) as [[[r g] b] a]. rewrite H.
  destruct ((r + g + b) / 3 <? 65535 / 2); auto.
Qed.

(** ** Fixed palettes *)

Lemma is_byte_spec v : is_byte v = true ↔ 0 ≤ v < 256.
Proof. unfold is_byte. rewrite andb_true_iff, Z.leb_le, Z.ltb_lt. tauto. Qed.

Lemma channel8 v : 0 ≤ v < 256 →
  Z.lor (uint32 v) (uint32 (Z.shiftl (uint32 v) 8)) = 257 * v.
Proof.
  intros Hv.
  assert (Hall : forallb (λ v, Z.lor (uint32 v) (uint32 (Z.shiftl (uint32 v) 8)) =? 257 * v)
                   (seqZ 0 256) = true) by (vm_compute; reflexivity).
  rewrite forallb_forall in Hall.
  apply Z.eqb_eq, Hall. apply list_elem_of_In, elem_of_seqZ. lia.
Qed.

Lemma RGBA_rgba8 r g b a :
  is_rgba8 (color_RGBA r g b a) = true →
  RGBA (color_RGBA r g b a) = (257 * r, 257 * g, 257 * b, 257 * a) ∧
  0 ≤ r < 256 ∧ 0 ≤ g < 256 ∧ 0 ≤ b < 256 ∧ 0 ≤ a < 256.
Proof.
  cbn [is_rgba8]. rewrite !andb_true_iff, !is_byte_spec. intros [[[Hr Hg] Hb] Ha].
  cbn [RGBA]. rewrite !channel8 by assumption. auto.
Qed.

Lemma square_bound d m : - m ≤ d ≤ m → 0 ≤ d * d ≤ m * m.
Proof.
  intros Hd. split; [apply Z.square_nonneg|].
  destruct (Z.le_ge_cases 0 d).
  - apply Z.mul_le_mono_nonneg; lia.
  - replace (d * d) with ((- d) * (- d)) by ring. apply Z.mul_le_mono_nonneg; lia.
Qed.

Lemma sqDiff_exact x y :
  0 ≤ x ≤ 65535 → 0 ≤ y ≤ 65535 → sqDiff x y = (x - y) * (x - y) / 4.
Proof.
  intros Hx Hy. unfold sqDiff, uint32.
  rewrite Z.shiftr_div_pow2 by lia. change (2 ^ 2) with 4.
  rewrite <- Zmult_mod, Z.mod_small; [reflexivity|].
  pose proof (square_bound (x - y) 65535). lia.
Qed.

Lemma sqDiff_zero8 a b :
  0 ≤ a < 256 → 0 ≤ b < 256 → sqDiff (257 * a) (257 * b) = 0 → a = b.
Proof.
  intros Ha Hb. rewrite sqDiff_exact by lia. intros H.
  apply Z.div_small_iff in H; [|lia]. nia.
Qed.

Lemma sqDiff_range x y : 0 ≤ sqDiff x y < 2 ^ 30.
Proof.
  unfold sqDiff. rewrite Z.shiftr_div_pow2 by lia.
  pose proof (uint32_range (uint32 (x - y) * uint32 (x - y))) as H.
  split; [apply Z.div_pos; lia|apply Z.div_lt_upper_bound; lia].
Qed.

Lemma sqDiff_diag x : sqDiff x x = 0.
Proof. unfold sqDiff. rewrite Z.sub_diag. reflexivity. Qed.

Lemma sqDiffSum_sum c v :
  let '(cr, cg, cb, ca) := RGBA c in
  let '(vr, vg, vb, va) := RGBA v in
  sqDiffSum c v = sqDiff cr vr + sqDiff cg vg + sqDiff cb vb + sqDiff ca va.
Proof.
  unfold sqDiffSum.
  destruct (RGBA c) as [[[cr cg] cb] ca], (RGBA v) as [[[vr vg] vb] va].
  pose proof (sqDiff_range cr vr). pose proof (sqDiff_range cg vg).
  pose proof (sqDiff_range cb vb). pose proof (sqDiff_range ca va).
  rewrite (uint32_small (sqDiff cr vr + sqDiff cg vg)) by lia.
  rewrite (uint32_small (sqDiff cr vr + sqDiff cg vg + sqDiff cb vb)) by lia.
  rewrite uint32_small by lia. reflexivity.
Qed.

Lemma sqDiffSum_nonneg c v : 0 ≤ sqDiffSum c v.
Proof. unfold sqDiffSum. destruct (RGBA c) as [[[? ?] ?] ?], (RGBA v) as [[[? ?] ?] ?].
  apply uint32_range. Qed.

Lemma sqDiffSum_diag c : sqDiffSum c c = 0.
Proof.
  pose proof (sqDiffSum_sum c c) as H.
  destruct (RGBA c) as [[[cr cg] cb] ca]. rewrite H, !sqDiff_diag. reflexivity.
Qed.

Lemma sqDiffSum_zero_rgba8 c v :
  is_rgba8 c = true → is_rgba8 v = true → sqDiffSum c v = 0 → c = v.
Proof.
  destruct c as [r g b a| | |]; try discriminate.
  destruct v as [r' g' b' a'| | |]; try discriminate.
  intros Hc Hv. pose proof (sqDiffSum_sum (color_RGBA r g b a) (color_RGBA r' g' b' a')) as H.
  destruct (RGBA_rgba8 _ _ _ _ Hc) as (E & ? & ? & ? & ?). rewrite E in H. clear E.
  destruct (RGBA_rgba8 _ _ _ _ Hv) as (E & ? & ? & ? & ?). rewrite E in H. clear E.
  rewrite H. clear H. intros H.
  pose proof (sqDiff_range (257 * r) (257 * r')).
  pose proof (sqDiff_range (257 * g) (257 * g')).
  pose proof (sqDiff_range (257 * b) (257 * b')).
  pose proof (sqDiff_range (257 * a) (257 * a')).
  f_equal; apply sqDiff_zero8; lia.
Qed.

(** [Index] returns [ret] or the index of an entry. *)
Lemma Index_from_range c p : ∀ i ret bestSum,
  Index_from c p i ret bestSum = ret ∨
  i ≤ Index_from c p i ret bestSum < i + Z.of_nat (length p).
Proof.
  induction p as [|v p IH]; intros i ret bestSum; cbn [Index_from length]; [auto|].
  destruct (sqDiffSum c v <? bestSum).
  - destruct (sqDiffSum c v =? 0); [right; lia|].
    destruct (IH (i + 1) i (sqDiffSum c v)) as [->|]; right; lia.
  - destruct (IH (i + 1) ret bestSum) as [->|]; [auto|right; lia].
Qed.

(** When some entry is at distance zero, [Index] returns the first one. *)
Lemma Index_from_zero c p : ∀ i ret bestSum k v,
  0 < bestSum → p !! k = Some v → sqDiffSum c v = 0 →
  ∃ k' v', Index_from c p i ret bestSum = i + Z.of_nat k' ∧
           p !! k' = Some v' ∧ sqDiffSum c v' = 0.
Proof.
  induction p as [|v0 p IH]; intros i ret bestSum k v Hbest Hk Hz; [discriminate|].
  cbn [Index_from]. pose proof (sqDiffSum_nonneg c v0) as H0.
  destruct (Z.eqb_spec (sqDiffSum c v0) 0) as [Hz0|Hnz0].
  - rewrite Hz0. destruct (Z.ltb_spec 0 bestSum); [|lia].
    exists 0%nat, v0. rewrite Z.add_0_r. auto.
  - destruct k as [|k]; [cbn in Hk; congruence|]. cbn in Hk.
    destruct (Z.ltb_spec (sqDiffSum c v0) bestSum).
    + destruct (IH (i + 1) i (sqDiffSum c v0) k v) as (k' & v' & -> & ? & ?); [lia|auto..|].
      exists (S k'), v'. split; [lia|auto].
    + destruct (IH (i + 1) ret bestSum k v) as (k' & v' & -> & ? & ?); [lia|auto..|].
      exists (S k'), v'. split; [lia|auto].
Qed.

Lemma table_ok_spec p :
  table_ok p = true → (0 < length p)%nat ∧ ∀ k v, p !! k = Some v → is_rgba8 v = true.
Proof.
  unfold table_ok. rewrite andb_true_iff, negb_true_iff, Z.eqb_neq, forallb_forall.
  intros [Hlen Hall]. split; [lia|].
  intros k v Hk. apply Hall, list_elem_of_In, list_elem_of_lookup. eauto.
Qed.

Lemma Palette_Convert_idempotent p c :
  table_ok p = true →
  ∃ q, Palette_Convert p c = Some q ∧ Palette_Convert p q = Some q.
Proof.
  intros Hok. pose proof Hok as Hok'. apply table_ok_spec in Hok' as [Hlen Hall].
  unfold Palette_Convert. destruct (Z.eqb_spec (Z.of_nat (length p)) 0); [lia|].
  assert (Hidx : 0 ≤ Palette_Index p c < Z.of_nat (length p)).
  { unfold Palette_Index. destruct (Index_from_range c p 0 0 (2 ^ 32 - 1)) as [->|]; lia. }
  destruct (lookup_lt_is_Some_2 p (Z.to_nat (Palette_Index p c))) as [q Hq]; [lia|].
  exists q. split; [exact Hq|].
  destruct (Index_from_zero q p 0 0 (2 ^ 32 - 1) _ q ltac:(lia) Hq (sqDiffSum_diag q))
    as (k' & v' & Hi & Hk' & Hz).
  unfold Palette_Index. rewrite Hi, Z.add_0_l, Nat2Z.id, Hk'.
  f_equal. symmetry. apply sqDiffSum_zero_rgba8; eauto.
Qed.

(** ** RGBA buffers *)

Lemma wf_buf_spec b :
  wf_buf b = true ↔
  0 ≤ Dx (Rect b) ∧ 0 ≤ Dy (Rect b) ∧ Stride b = 4 * Dx (Rect b) ∧
  Z.of_nat (length (Pix b)) = 4 * Dx (Rect b) * Dy (Rect b) ∧
  Forall (λ v, 0 ≤ v < 256) (Pix b).
Proof.
  unfold wf_buf. rewrite !andb_true_iff, !Z.leb_le, !Z.eqb_eq, forallb_forall, Forall_forall.
  assert ((∀ x, In x (Pix b) → is_byte x = true) ↔ (∀ x, x ∈ Pix b → 0 ≤ x < 256)).
  { split; intros H x Hx; [apply is_byte_spec, H, list_elem_of_In, Hx
                          |apply is_byte_spec, H, list_elem_of_In, Hx]. }
  tauto.
Qed.

Lemma Point_In_spec x y r :
  Point_In (mkPoint x y) r = true ↔
  X (Min r) ≤ x < X (Max r) ∧ Y (Min r) ≤ y < Y (Max r).
Proof.
  unfold Point_In. cbn [X Y].
  rewrite !andb_true_iff, !Z.leb_le, !Z.ltb_lt. tauto.
Qed.

Lemma PixOffset_range b x y :
  wf_buf b = true → Point_In (mkPoint x y) (Rect b) = true →
  0 ≤ PixOffset b x y ∧ PixOffset b x y + 4 ≤ Z.of_nat (length (Pix b)).
Proof.
  rewrite wf_buf_spec, Point_In_spec. unfold PixOffset, Dx, Dy.
  intros (Hw & Hh & -> & -> & _) [Hx Hy].
  set (w := X (Max (Rect b)) - X (Min (Rect b))) in *.
  set (u := y - Y (Min (Rect b))). set (v := x - X (Min (Rect b))).
  assert (0 ≤ u) by lia. assert (u + 1 ≤ Y (Max (Rect b)) - Y (Min (Rect b))) by lia.
  assert (0 ≤ v < w) by lia.
  assert (0 ≤ u * w) by nia.
  assert (w * (u + 1) ≤ w * (Y (Max (Rect b)) - Y (Min (Rect b)))) by (apply Z.mul_le_mono_nonneg_l; lia).
  nia.
Qed.

Lemma PixOffset_apart b x y x' y' :
  wf_buf b = true →
  Point_In (mkPoint x y) (Rect b) = true → Point_In (mkPoint x' y') (Rect b) = true →
  (x, y) ≠ (x', y') →
  PixOffset b x y + 4 ≤ PixOffset b x' y' ∨ PixOffset b x' y' + 4 ≤ PixOffset b x y.
Proof.
  rewrite wf_buf_spec, !Point_In_spec. unfold PixOffset, Dx, Dy.
  intros (Hw & Hh & -> & _) [Hx Hy] [Hx' Hy'] Hne.
  set (w := X (Max (Rect b)) - X (Min (Rect b))) in *.
  destruct (Z.lt_trichotomy y y') as [Hlt|[->|Hgt]].
  - left. assert (w * (y - Y (Min (Rect b)) + 1) ≤ w * (y' - Y (Min (Rect b))))
      by (apply Z.mul_le_mono_nonneg_l; lia). nia.
  - assert (x ≠ x') by congruence. lia.
  - right. assert (w * (y' - Y (Min (Rect b)) + 1) ≤ w * (y - Y (Min (Rect b))))
      by (apply Z.mul_le_mono_nonneg_l; lia). nia.
Qed.

(** Four consecutive byte stores, read back. *)
Section Store4.
Context (l : list Z) (i : Z) (r g b a : Z).
Hypothesis Hi : 0 ≤ i.
Hypothesis Hlen : i + 4 ≤ Z.of_nat (length l).

Local Abbreviation l' := (<[Z.to_nat (i + 3) := a]> (<[Z.to_nat (i + 2) := b]>
                          (<[Z.to_nat (i + 1) := g]> (<[Z.to_nat i := r]> l)))).

Lemma store4_length : length l' = length l.
Proof. rewrite !length_insert. reflexivity. Qed.

Lemma store4_same :
  l' !! Z.to_nat i = Some r ∧ l' !! Z.to_nat (i + 1) = Some g ∧
  l' !! Z.to_nat (i + 2) = Some b ∧ l' !! Z.to_nat (i + 3) = Some a.
Proof.
  repeat split.
  - rewrite !list_lookup_insert_ne by lia. apply list_lookup_insert_eq. lia.
  - rewrite !list_lookup_insert_ne by lia. apply list_lookup_insert_eq.
    rewrite !length_insert. lia.
  - rewrite !list_lookup_insert_ne by lia. apply list_lookup_insert_eq.
    rewrite !length_insert. lia.
  - apply list_lookup_insert_eq. rewrite !length_insert. lia.
Qed.

Lemma store4_other j : 0 ≤ j → j < i ∨ i + 4 ≤ j → l' !! Z.to_nat j = l !! Z.to_nat j.
Proof. intros Hj Hij. rewrite !list_lookup_insert_ne by lia. reflexivity. Qed.

Lemma store4_bytes :
  Forall (λ v, 0 ≤ v < 256) l → 0 ≤ r < 256 → 0 ≤ g < 256 → 0 ≤ b < 256 → 0 ≤ a < 256 →
  Forall (λ v, 0 ≤ v < 256) l'.
Proof. intros. repeat apply Forall_insert; assumption. Qed.
End Store4.

Lemma RGBAModel_Convert_RGBA c : ∃ r g b a, RGBAModel_Convert c = color_RGBA r g b a.
Proof.
  destruct c as [r g b a|r g b a|r g b a|y]; cbn [RGBAModel_Convert]; eauto.
Qed.

(** [At] never panics on a buffer laid out by [NewRGBA], and returns bytes. *)
Lemma RGBAAt_wf b x y :
  wf_buf b = true → ∃ c, RGBAAt b x y = Some c ∧ is_rgba8 c = true.
Proof.
  intros Hwf. unfold RGBAAt.
  destruct (Point_In (mkPoint x y) (Rect b)) eqn:Hin; cbn [negb]; [|eauto].
  destruct (PixOffset_range b x y Hwf Hin) as [H0 H4].
  apply wf_buf_spec in Hwf as (_ & _ & _ & _ & Hbytes).
  rewrite Forall_lookup in Hbytes.
  destruct (Z.ltb_spec (PixOffset b x y) 0); [lia|].
  destruct (lookup_lt_is_Some_2 (Pix b) (Z.to_nat (PixOffset b x y))) as [s0 E0]; [lia|].
  destruct (lookup_lt_is_Some_2 (Pix b) (Z.to_nat (PixOffset b x y + 1))) as [s1 E1]; [lia|].
  destruct (lookup_lt_is_Some_2 (Pix b) (Z.to_nat (PixOffset b x y + 2))) as [s2 E2]; [lia|].
  destruct (lookup_lt_is_Some_2 (Pix b) (Z.to_nat (PixOffset b x y + 3))) as [s3 E3]; [lia|].
  rewrite E0, E1, E2, E3. cbn. eexists; split; [reflexivity|].
  cbn [is_rgba8]. rewrite !andb_true_iff, !is_byte_spec. eauto 10.
Qed.

Lemma RGBAAt_outside b x y :
  Point_In (mkPoint x y) (Rect b) = false → RGBAAt b x y = Some (color_RGBA 0 0 0 0).
Proof. intros H. unfold RGBAAt. rewrite H. reflexivity. Qed.

(** [Set] on a buffer laid out by [NewRGBA]: it never panics, keeps the
    layout, writes the stored form of the colour at an inside pixel and
    leaves every other pixel as it was. *)
Lemma RGBASet_wf b x y c :
  wf_buf b = true →
  ∃ b', RGBASet b x y c = Some b' ∧ wf_buf b' = true ∧ Rect b' = Rect b ∧
        ∀ x' y', RGBAAt b' x' y' =
                 if Point_In (mkPoint x y) (Rect b) && (x' =? x) && (y' =? y)
                 then Some (stored c) else RGBAAt b x' y'.
Proof.
  intros Hwf. unfold RGBASet, stored.
  destruct (Point_In (mkPoint x y) (Rect b)) eqn:Hin; cbn [negb andb]; [|eauto].
  destruct (RGBAModel_Convert_RGBA c) as (cr & cg & cb & ca & ->).
  destruct (PixOffset_range b x y Hwf Hin) as [H0 H4].
  set (i := PixOffset b x y) in *.
  destruct (Z.ltb_spec i 0); [lia|].
  destruct (Z.ltb_spec (Z.of_nat (length (Pix b))) (i + 4)); [lia|]. cbn [orb].
  eexists; split; [reflexivity|].
  pose proof Hwf as Hwf'. apply wf_buf_spec in Hwf' as (Hw & Hh & Hs & Hl & Hb).
  split; [|split; [reflexivity|]].
  - apply wf_buf_spec. cbn [Rect Stride Pix].
    rewrite store4_length. repeat split; try assumption.
    apply store4_bytes; auto using uint8_range.
  - intros x' y'.
    assert (Hoff : ∀ l, PixOffset {| Pix := l; Stride := Stride b; Rect := Rect b |} x' y'
                        = PixOffset b x' y') by reflexivity.
    unfold RGBAAt at 1. cbn [Rect Pix]. rewrite !Hoff.
    destruct (Z.eqb_spec x' x) as [->|Hx]; [destruct (Z.eqb_spec y' y) as [->|Hy]|]; cbn [andb].
    + rewrite Hin. cbn [negb]. fold i.
      destruct (Z.ltb_spec i 0); [lia|].
      destruct (store4_same (Pix b) i (uint8 cr) (uint8 cg) (uint8 cb) (uint8 ca)) as (-> & -> & -> & ->);
        try lia. reflexivity.
    + unfold RGBAAt. destruct (Point_In (mkPoint x y') (Rect b)) eqn:Hin'; [|reflexivity].
      cbn [negb].
      destruct (PixOffset_range b x y' Hwf Hin') as [H0' H4'].
      assert (Hap := PixOffset_apart b x y x y' Hwf Hin Hin' ltac:(congruence)). fold i in Hap.
      rewrite !(store4_other (Pix b) i) by lia. reflexivity.
    + unfold RGBAAt. destruct (Point_In (mkPoint x' y') (Rect b)) eqn:Hin'; [|reflexivity].
      cbn [negb].
      destruct (PixOffset_range b x' y' Hwf Hin') as [H0' H4'].
      assert (Hap := PixOffset_apart b x y x' y' Hwf Hin Hin' ltac:(congruence)). fold i in Hap.
      rewrite !(store4_other (Pix b) i) by lia. reflexivity.
Qed.

Lemma wf_buf_readable b : wf_buf b = true → readable b.
Proof. intros Hwf x y Hin. apply PixOffset_range; assumption. Qed.

Lemma RGBAAt_readable b x y : readable b → is_Some (RGBAAt b x y).
Proof.
  intros Hr. unfold RGBAAt.
  destruct (Point_In (mkPoint x y) (Rect b)) eqn:Hin; cbn [negb]; [|eauto].
  destruct (Hr x y Hin) as [H0 H4].
  destruct (Z.ltb_spec (PixOffset b x y) 0); [lia|].
  destruct (lookup_lt_is_Some_2 (Pix b) (Z.to_nat (PixOffset b x y))) as [s0 ->]; [lia|].
  destruct (lookup_lt_is_Some_2 (Pix b) (Z.to_nat (PixOffset b x y + 1))) as [s1 ->]; [lia|].
  destruct (lookup_lt_is_Some_2 (Pix b) (Z.to_nat (PixOffset b x y + 2))) as [s2 ->]; [lia|].
  destruct (lookup_lt_is_Some_2 (Pix b) (Z.to_nat (PixOffset b x y + 3))) as [s3 ->]; [lia|].
  cbn. eauto.
Qed.

(** ** Rules for triples *)

Section Triples.
Variables (h0 : Heap) (p : loc).
Hypothesis Hp : (p < length h0)%nat.

Lemma triple_ret {T} (a : T) (P : image_RGBA → Prop) (Q : T → image_RGBA → Prop) :
  (∀ b, P b → Q a b) → triple h0 p P (mret a) Q.
Proof. intros H b Hb. exists a, b. split; [reflexivity|auto]. Qed.

Lemma triple_bind {T U} (P : image_RGBA → Prop) (m : M T) (Q : T → image_RGBA → Prop)
    (k : T → M U) (R : U → image_RGBA → Prop) :
  triple h0 p P m Q → (∀ a, triple h0 p (Q a) (k a) R) → triple h0 p P (m ≫= k) R.
Proof.
  intros Hm Hk b Hb. destruct (Hm b Hb) as (a & b1 & E1 & Hq).
  destruct (Hk a b1 Hq) as (u & b2 & E2 & Hr).
  exists u, b2. split; [|exact Hr].
  unfold mbind, M_bind. rewrite E1. exact E2.
Qed.

Lemma triple_weaken {T} (P P' : image_RGBA → Prop) (m : M T) (Q Q' : T → image_RGBA → Prop) :
  (∀ b, P' b → P b) → (∀ a b, Q a b → Q' a b) → triple h0 p P m Q → triple h0 p P' m Q'.
Proof.
  intros HP HQ Hm b Hb. destruct (Hm b (HP b Hb)) as (a & b' & E & Hq). eauto.
Qed.

Lemma triple_pointwise {T} (P : image_RGBA → Prop) (m : M T) (Q : T → image_RGBA → Prop) :
  (∀ b0, P b0 → triple h0 p (eq b0) m Q) → triple h0 p P m Q.
Proof. intros H b Hb. exact (H b Hb b eq_refl). Qed.

Lemma deref_run b : deref p (<[p := b]> h0) = Some (b, <[p := b]> h0).
Proof. unfold deref. rewrite list_lookup_insert_eq by exact Hp. reflexivity. Qed.

Lemma assign_run b b' : assign p b' (<[p := b]> h0) = Some (tt, <[p := b']> h0).
Proof.
  unfold assign. rewrite list_lookup_insert_eq by exact Hp.
  rewrite list_insert_insert_eq. reflexivity.
Qed.

Lemma RGBA_At_run x y b :
  RGBA_At p x y (<[p := b]> h0) =
  match RGBAAt b x y with Some c => Some (c, <[p := b]> h0) | None => None end.
Proof. unfold RGBA_At, mbind, M_bind. rewrite deref_run. reflexivity. Qed.

Lemma RGBA_Set_run x y c b :
  RGBA_Set p x y c (<[p := b]> h0) =
  match RGBASet b x y c with Some b' => Some (tt, <[p := b']> h0) | None => None end.
Proof.
  unfold RGBA_Set, mbind, M_bind. rewrite deref_run. unfold lift.
  destruct (RGBASet b x y c); [apply assign_run|reflexivity].
Qed.

Lemma triple_At x y (P : image_RGBA → Prop) :
  (∀ b, P b → wf_buf b = true) →
  triple h0 p P (RGBA_At p x y) (λ c b, P b ∧ RGBAAt b x y = Some c).
Proof.
  intros HP b Hb. destruct (RGBAAt_wf b x y (HP b Hb)) as (c & E & _).
  exists c, b. rewrite RGBA_At_run, E. auto.
Qed.

Lemma triple_Set x y c b0 :
  wf_buf b0 = true →
  triple h0 p (eq b0) (RGBA_Set p x y c)
    (λ _ b', wf_buf b' = true ∧ Rect b' = Rect b0 ∧
             ∀ x' y', RGBAAt b' x' y' =
                      if Point_In (mkPoint x y) (Rect b0) && (x' =? x) && (y' =? y)
                      then Some (stored c) else RGBAAt b0 x' y').
Proof.
  intros Hwf b <-. destruct (RGBASet_wf b0 x y c Hwf) as (b' & E & H).
  exists tt, b'. rewrite RGBA_Set_run, E. auto.
Qed.

Lemma triple_for_loop (body : Z → M unit) (I : Z → image_RGBA → Prop) n : ∀ i,
  (∀ j, i ≤ j < i + Z.of_nat n → triple h0 p (I j) (body j) (λ _, I (j + 1))) →
  triple h0 p (I i) (for_loop n i body) (λ _, I (i + Z.of_nat n)).
Proof.
  induction n as [|n IH]; intros i Hbody; cbn [for_loop].
  - apply triple_ret. intros b Hb. rewrite Z.add_0_r. exact Hb.
  - eapply triple_bind; [apply Hbody; lia|]. intros [].
    eapply triple_weaken; [| |apply (IH (i + 1))].
    + auto.
    + cbn beta. intros _ b Hb. replace (i + Z.of_nat (S n)) with (i + 1 + Z.of_nat n) by lia.
      exact Hb.
    + intros j Hj. apply Hbody. lia.
Qed.

Lemma triple_for_range (body : Z → M unit) (I : Z → image_RGBA → Prop) lo hi :
  lo ≤ hi →
  (∀ j, lo ≤ j < hi → triple h0 p (I j) (body j) (λ _, I (j + 1))) →
  triple h0 p (I lo) (for_range lo hi body) (λ _, I hi).
Proof.
  intros Hle Hbody. unfold for_range.
  eapply triple_weaken; [| |apply (triple_for_loop body I (Z.to_nat (hi - lo)) lo)].
  - auto.
  - cbn beta. intros _ b Hb. replace hi with (lo + Z.of_nat (Z.to_nat (hi - lo))) by lia.
    exact Hb.
  - intros j Hj. apply Hbody. lia.
Qed.
End Triples.

Lemma forward_kernel_safe algo : forward_kernel algo → safe_kernel algo.
Proof.
  intros H x y p err h b Hb Hwf.
  destruct (H x y p err h b Hb Hwf) as (b' & ? & ? & ? & _).
  exists b'. repeat split; try assumption. discriminate.
Qed.

Lemma bind_run {T U} (m : M T) (k : T → M U) (h : Heap) :
  (m ≫= k) h = match m h with Some (a, h') => k a h' | None => None end.
Proof. reflexivity. Qed.

Lemma bind_cong_r {T U} (m : M T) (k k' : T → M U) (h : Heap) :
  (∀ a h', k a h' = k' a h') → (m ≫= k) h = (m ≫= k') h.
Proof. intros H. rewrite !bind_run. destruct (m h) as [[a h']|]; auto. Qed.

Lemma bind_ret_tt (m : M unit) (h : Heap) : (m;; mret tt) h = m h.
Proof. rewrite bind_run. destruct (m h) as [[[] h']|]; reflexivity. Qed.

Lemma FloydSteinberg_diffuse x y img err h :
  FloydSteinberg x y img err h =
  diffuse applyWeightsFloydSteinber FloydSteinberg_table x y img err h.
Proof.
  unfold FloydSteinberg, FloydSteinberg_table. cbn [diffuse].
  rewrite !Z.add_0_r. change (x + -1) with (x - 1).
  do 3 (apply bind_cong_r; intros _ ?). symmetry. apply bind_ret_tt.
Qed.

Lemma Burkes_diffuse x y img err h :
  Burkes x y img err h = diffuse applyWeightsBurkes Burkes_table x y img err h.
Proof.
  unfold Burkes, Burkes_table. cbn [diffuse].
  rewrite !Z.add_0_r. change (x + -2) with (x - 2). change (x + -1) with (x - 1).
  do 6 (apply bind_cong_r; intros _ ?). symmetry. apply bind_ret_tt.
Qed.

Section Diffuse.
Variables (h0 : Heap) (p : loc).
Hypothesis Hp : (p < length h0)%nat.
Variables (app : Color → RGBAVec → Z → Color) (x y : Z) (err : RGBAVec).

(** One neighbour: read, adjust, write back. *)
Lemma triple_neighbour (f : Color → Color) xs ys b0 :
  wf_buf b0 = true →
  triple h0 p (eq b0) (c ← RGBA_At p xs ys; RGBA_Set p xs ys (f c))
    (λ _ b1, wf_buf b1 = true ∧ Rect b1 = Rect b0 ∧
             ∀ x' y', RGBAAt b1 x' y' =
                      if Point_In (mkPoint xs ys) (Rect b0) && (x' =? xs) && (y' =? ys)
                      then c ← RGBAAt b0 xs ys; Some (stored (f c))
                      else RGBAAt b0 x' y').
Proof.
  intros Hwf b <-. destruct (RGBAAt_wf b0 xs ys Hwf) as (c & E & _).
  destruct (RGBASet_wf b0 xs ys (f c) Hwf) as (b1 & E1 & Hwf1 & Hr1 & Hat).
  exists tt, b1. rewrite bind_run, (RGBA_At_run h0 p Hp), E, (RGBA_Set_run h0 p Hp), E1.
  split; [reflexivity|]. repeat split; assumption.
Qed.

(** The whole table: every inside pixel at an offset of the table is
    adjusted once, with the [mul] of its entry; every other pixel is
    unchanged. *)
Lemma triple_diffuse tbl : distinct_offsets tbl = true → ∀ b0,
  wf_buf b0 = true →
  triple h0 p (eq b0) (diffuse app tbl x y p err)
    (λ _ b', wf_buf b' = true ∧ Rect b' = Rect b0 ∧
             ∀ x' y', RGBAAt b' x' y' =
                      match (if Point_In (mkPoint x' y') (Rect b0)
                             then weight_at tbl (x' - x) (y' - y) else None) with
                      | Some mul => c ← RGBAAt b0 x' y'; Some (stored (app c err mul))
                      | None => RGBAAt b0 x' y'
                      end).
Proof.
  induction tbl as [|[[dx dy] mul] tbl IH]; intros Hd b0 Hwf; cbn [diffuse].
  - apply triple_ret. intros b <-. repeat split; try assumption.
    intros x' y'. cbn [weight_at]. destruct (Point_In _ _); reflexivity.
  - cbn [distinct_offsets] in Hd.
    destruct (weight_at tbl dx dy) eqn:Hfresh; [discriminate|].
    eapply triple_bind; [apply (triple_neighbour _ _ _ _ Hwf)|]. intros [].
    apply triple_pointwise. intros b1 (Hwf1 & Hr1 & Hat1).
    eapply triple_weaken; [| |apply (IH Hd b1 Hwf1)]; [auto|]. cbn beta.
    intros _ b' (Hwf' & Hr' & Hat'). split; [assumption|]. split; [congruence|].
    intros x' y'. rewrite Hat', Hr1. cbn [weight_at].
    destruct (Point_In (mkPoint x' y') (Rect b0)) eqn:Hin; [|rewrite Hat1].
    + destruct (Z.eqb_spec (x' - x) dx) as [Ex|Ex];
        [destruct (Z.eqb_spec (y' - y) dy) as [Ey|Ey]|]; cbn [andb].
      * assert (x' = x + dx) as -> by lia. assert (y' = y + dy) as -> by lia.
        rewrite <- Ex, <- Ey in Hfresh. rewrite Hfresh, Hat1, Hin, !Z.eqb_refl.
        reflexivity.
      * rewrite !Hat1.
        destruct (Z.eqb_spec y' (y + dy)); [lia|]. rewrite !andb_false_r. reflexivity.
      * rewrite !Hat1.
        destruct (Z.eqb_spec x' (x + dx)); [lia|].
        rewrite !andb_false_r, !andb_false_l. reflexivity.
    + destruct (Z.eqb_spec x' (x + dx)) as [->|]; [|rewrite andb_false_r; reflexivity].
      destruct (Z.eqb_spec y' (y + dy)) as [->|]; [|rewrite andb_false_r; reflexivity].
      rewrite Hin. reflexivity.
Qed.
End Diffuse.

Lemma forward_offsets_spec tbl dx dy mul :
  forward_offsets tbl = true → weight_at tbl dx dy = Some mul →
  0 < dy ∨ (dy = 0 ∧ 0 < dx).
Proof.
  unfold forward_offsets.
  induction tbl as [|[[dx' dy'] mul'] tbl IH]; cbn [forallb weight_at]; [discriminate|].
  rewrite andb_true_iff. intros [Hhd Htl].
  destruct (Z.eqb_spec dx dx') as [->|]; [destruct (Z.eqb_spec dy dy') as [->|]|]; cbn [andb]; auto.
  intros _. apply orb_true_iff in Hhd as [Hhd|Hhd]; [left; lia|].
  apply andb_true_iff in Hhd as [? ?]. right. lia.
Qed.

(** A table of distinct forward offsets is a forward kernel. *)
Lemma diffuse_forward app tbl :
  distinct_offsets tbl = true → forward_offsets tbl = true →
  forward_kernel (diffuse app tbl).
Proof.
  intros Hd Hf x y p err h b Hb Hwf.
  assert (Hp : (p < length h)%nat) by (eapply lookup_lt_Some; eauto).
  destruct (triple_diffuse h p Hp app x y err tbl Hd b Hwf b eq_refl)
    as ([] & b' & E & Hwf' & Hr' & Hat).
  rewrite (list_insert_id h p b Hb) in E.
  exists b'. repeat split; try assumption.
  intros _ x' y' Hbefore. rewrite Hat.
  destruct (Point_In (mkPoint x' y') (Rect b)); [|reflexivity].
  destruct (weight_at tbl (x' - x) (y' - y)) as [mul|] eqn:Hw; [|reflexivity].
  destruct (forward_offsets_spec _ _ _ _ Hf Hw); lia.
Qed.

Lemma FloydSteinberg_forward : forward_kernel FloydSteinberg.
Proof.
  intros x y p err h b Hb Hwf. rewrite FloydSteinberg_diffuse.
  apply (diffuse_forward applyWeightsFloydSteinber FloydSteinberg_table); auto.
Qed.

Lemma Burkes_forward : forward_kernel Burkes.
Proof.
  intros x y p err h b Hb Hwf. rewrite Burkes_diffuse.
  apply (diffuse_forward applyWeightsBurkes Burkes_table); auto.
Qed.

(** ** The engine *)

Lemma zero_buf_wf r : 0 ≤ Dx r → 0 ≤ Dy r → wf_buf (zero_buf r) = true.
Proof.
  intros Hw Hh. apply wf_buf_spec. cbn [zero_buf Rect Stride Pix].
  rewrite length_replicate.
  assert (0 ≤ 4 * Dx r * Dy r) by (apply Z.mul_nonneg_nonneg; lia).
  repeat split; try lia.
  apply Forall_replicate. lia.
Qed.

Lemma fits_int_spec r :
  fits_int r = true ↔
  0 ≤ Dx r ∧ 0 ≤ Dy r ∧ 4 * Dx r < 2 ^ 63 ∧ 4 * Dx r * Dy r < 2 ^ 63.
Proof.
  unfold fits_int. rewrite !andb_true_iff, !Z.leb_le, !Z.ltb_lt. tauto.
Qed.

(** On a rectangle that fits, [mul3NonNeg] returns the product. *)
Lemma mul3NonNeg_fits r : fits_int r = true → mul3NonNeg 4 (Dx r) (Dy r) = 4 * Dx r * Dy r.
Proof.
  rewrite fits_int_spec. intros (Hw & Hh & Hrow & Hlen). unfold mul3NonNeg.
  destruct (Z.ltb_spec (Dx r) 0); [lia|]. destruct (Z.ltb_spec (Dy r) 0); [lia|].
  cbn [orb Z.ltb Z.compare]. cbv zeta.
  rewrite (uint64_small 4), (uint64_small (Dx r)) by lia.
  rewrite (Z.div_small (4 * Dx r)) by lia. cbn [Z.eqb negb].
  rewrite (uint64_small (4 * Dx r)) by lia.
  destruct (Z.eq_dec (Dx r) 0) as [E|E].
  - (* a row of width zero: the product is zero whatever the height *)
    rewrite E. reflexivity.
  - assert (Dy r ≤ 4 * Dx r * Dy r) by nia.
    rewrite (uint64_small (Dy r)) by lia.
    assert (0 ≤ 4 * Dx r * Dy r) by (apply Z.mul_nonneg_nonneg; lia).
    rewrite (Z.div_small (4 * Dx r * Dy r)) by lia. cbn [Z.eqb negb].
    rewrite (uint64_small (4 * Dx r * Dy r)), int64_small by lia.
    destruct (Z.ltb_spec (4 * Dx r * Dy r) 0); [lia|reflexivity].
Qed.

Lemma NewRGBA_run r (h : Heap) :
  fits_int r = true → NewRGBA r h = Some (length h, h ++ [zero_buf r]).
Proof.
  intros Hfit. unfold NewRGBA, pixelBufferLength.
  rewrite bind_run, (mul3NonNeg_fits r Hfit).
  apply fits_int_spec in Hfit as (Hw & Hh & Hrow & Hlen).
  assert (0 ≤ 4 * Dx r * Dy r) by (apply Z.mul_nonneg_nonneg; lia).
  destruct (Z.ltb_spec (4 * Dx r * Dy r) 0); [lia|].
  cbn beta iota. unfold alloc, zero_buf. rewrite int64_small by lia. reflexivity.
Qed.

Lemma Image_Bounds_ok (h : Heap) img :
  img_ok h img →
  ∃ rect, Image_Bounds img h = Some (rect, h) ∧ fits_int rect = true.
Proof.
  destruct img as [s|r f]; cbn [img_ok Image_Bounds].
  - intros (b & Hb & Hfit & _). exists (Rect b).
    unfold RGBA_Bounds. rewrite bind_run. unfold deref. rewrite Hb. auto.
  - intros Hfit. exists r. auto.
Qed.

Section Engine.
Variables (img : Image) (algo : Algo) (find : ColorFinder) (fwd : bool).
Variables (h : Heap) (rect : Rectangle) (b0 : image_RGBA).
Hypothesis Himg : img_ok h img.
Hypothesis Halgo : kernel_spec fwd algo.
Hypothesis Hw : 0 ≤ Dx rect.
Hypothesis Hh : 0 ≤ Dy rect.

Local Abbreviation h0 := (h ++ [b0]).
Local Abbreviation p := (length h).
Local Abbreviation pass_inv := (pass_invariant fwd find rect).

Lemma fresh_lt : (p < length h0)%nat.
Proof. rewrite length_app. cbn. lia. Qed.

(** Reading the source changes nothing and cannot panic. *)
Lemma triple_Image_At (P : image_RGBA → Prop) xs ys :
  triple h0 p P (Image_At img xs ys) (λ _ b, P b).
Proof.
  intros b Hb. destruct img as [s|r f]; cbn [Image_At img_ok] in *.
  - destruct Himg as (bs & Hs & _ & Hread).
    assert (s < p)%nat by (eapply lookup_lt_Some; eauto).
    destruct (RGBAAt_readable bs xs ys Hread) as [c Hc].
    exists c, b. split; [|exact Hb].
    unfold RGBA_At. rewrite bind_run. unfold deref.
    rewrite list_lookup_insert_ne by lia. rewrite lookup_app_l by lia.
    rewrite Hs. unfold lift. rewrite Hc. reflexivity.
  - exists (f xs ys), b. split; [reflexivity|exact Hb].
Qed.

Lemma triple_kernel x y err b1 :
  wf_buf b1 = true →
  triple h0 p (eq b1) (algo x y p err)
    (λ _ b2, wf_buf b2 = true ∧ Rect b2 = Rect b1 ∧
             (fwd = true → ∀ x' y', y' < y ∨ (y' = y ∧ x' ≤ x) →
                                    RGBAAt b2 x' y' = RGBAAt b1 x' y')).
Proof.
  intros Hwf b <-.
  destruct (Halgo x y p err (<[p := b1]> h0) b1) as (b2 & E & H2);
    [apply list_lookup_insert_eq, fresh_lt|exact Hwf|].
  rewrite list_insert_insert_eq in E. exists tt, b2. auto.
Qed.

(** [draw.Draw] keeps the layout of the destination. *)
Lemma triple_draw sp :
  triple h0 p (λ b, wf_buf b = true ∧ Rect b = rect)
    (draw_Draw_Src p rect img sp)
    (λ _ b, wf_buf b = true ∧ Rect b = rect).
Proof.
  unfold draw_Draw_Src.
  apply (triple_for_range h0 p fresh_lt _ (λ _ b, wf_buf b = true ∧ Rect b = rect)); [unfold Dy in Hh; lia|].
  intros y _.
  apply (triple_for_range h0 p fresh_lt _ (λ _ b, wf_buf b = true ∧ Rect b = rect)); [unfold Dx in Hw; lia|].
  intros x _.
  eapply triple_bind; [apply triple_Image_At|]. intros c. cbn beta.
  apply triple_pointwise. intros b1 [Hwf1 Hr1].
  eapply triple_weaken; [| |apply (triple_Set h0 p fresh_lt x y (drawn img c) b1 Hwf1)]; [auto|].
  cbn beta. intros _ b2 (Hwf2 & Hr2 & _). split; [assumption|congruence].
Qed.

Lemma triple_pixel x y :
  Point_In (mkPoint x y) rect = true →
  triple h0 p (pass_inv x y)
    (oldPixel ← RGBA_At p x y;
     let newPixel := find oldPixel in
     RGBA_Set p x y newPixel;;
     let diff := colorDiff oldPixel newPixel in
     algo x y p diff)
    (λ _, pass_inv (x + 1) y).
Proof.
  intros Hin. apply triple_pointwise. intros b1 (Hwf1 & Hr1 & Hdone1).
  eapply triple_bind; [apply (triple_At h0 p fresh_lt x y (eq b1)); congruence|].
  intros oldPixel. cbn beta zeta.
  apply triple_pointwise. intros ? [<- Hold].
  eapply triple_bind; [apply (triple_Set h0 p fresh_lt x y _ b1 Hwf1)|]. intros [].
  apply triple_pointwise. intros b2 (Hwf2 & Hr2 & Hat2).
  eapply triple_weaken; [| |apply (triple_kernel x y _ b2 Hwf2)]; [auto|].
  cbn beta. intros _ b3 (Hwf3 & Hr3 & Hat3). split; [assumption|]. split; [congruence|].
  intros Hfwd x' y' Hin' Hbefore. rewrite (Hat3 Hfwd x' y') by lia.
  rewrite Hat2, Hr1, Hin. cbn [andb].
  destruct (Z.eqb_spec x' x) as [->|]; [destruct (Z.eqb_spec y' y) as [->|]|]; cbn [andb]; eauto.
  - apply Hdone1; auto. lia.
  - apply Hdone1; auto. lia.
Qed.

Lemma triple_row y :
  Y (Min rect) ≤ y < Y (Max rect) →
  triple h0 p (pass_inv (X (Min rect)) y)
    (for_range (X (Min rect)) (X (Max rect)) (λ x,
       oldPixel ← RGBA_At p x y;
       let newPixel := find oldPixel in
       RGBA_Set p x y newPixel;;
       let diff := colorDiff oldPixel newPixel in
       algo x y p diff))
    (λ _, pass_inv (X (Min rect)) (y + 1)).
Proof.
  intros Hy.
  eapply triple_weaken;
    [| |apply (triple_for_range h0 p fresh_lt _ (λ x, pass_inv x y) (X (Min rect)) (X (Max rect)))].
  - auto.
  - cbn beta. intros _ b (Hwf & Hr & Hdone). split; [assumption|]. split; [assumption|].
    intros Hfwd x' y' Hin' Hbefore. apply Hdone; auto.
    apply Point_In_spec in Hin'. lia.
  - unfold Dx in Hw. lia.
  - intros x Hx. apply triple_pixel. apply Point_In_spec. lia.
Qed.

Lemma triple_pass :
  triple h0 p (λ b, wf_buf b = true ∧ Rect b = rect)
    (for_range (Y (Min rect)) (Y (Max rect)) (λ y,
       for_range (X (Min rect)) (X (Max rect)) (λ x,
         oldPixel ← RGBA_At p x y;
         let newPixel := find oldPixel in
         RGBA_Set p x y newPixel;;
         let diff := colorDiff oldPixel newPixel in
         algo x y p diff)))
    (λ _ b, wf_buf b = true ∧ Rect b = rect ∧
            (fwd = true → ∀ x y, Point_In (mkPoint x y) rect = true →
                                 ∃ c, RGBAAt b x y = Some (stored (find c)))).
Proof.
  eapply triple_weaken;
    [| |apply (triple_for_range h0 p fresh_lt _ (λ y, pass_inv (X (Min rect)) y)
                 (Y (Min rect)) (Y (Max rect)))].
  - cbn beta. intros b [Hwf Hr]. split; [assumption|]. split; [assumption|].
    intros _ x' y' Hin' Hbefore. apply Point_In_spec in Hin'. lia.
  - cbn beta. intros _ b (Hwf & Hr & Hdone). split; [assumption|]. split; [assumption|].
    intros Hfwd x y Hin. apply Hdone; auto. apply Point_In_spec in Hin. lia.
  - unfold Dy in Hh. lia.
  - intros y Hy. apply triple_row. exact Hy.
Qed.
End Engine.

Lemma insert_snoc {T} (l : list T) (x y : T) : <[length l := y]> (l ++ [x]) = l ++ [y].
Proof. induction l as [|a l IH]; [reflexivity|]. cbn. f_equal. exact IH. Qed.

(** What a run of [Dither] does: it reads the bounds of the source,
    allocates one new buffer at the end of the store, changes nothing
    else, and returns the location of that buffer. *)
Lemma Dither_run img algo find fwd (h : Heap) :
  img_ok h img → kernel_spec fwd algo →
  ∃ rect b', Image_Bounds img h = Some (rect, h) ∧
             Dither img algo find h = Some (length h, h ++ [b']) ∧
             wf_buf b' = true ∧ Rect b' = rect ∧
             (fwd = true → ∀ x y, Point_In (mkPoint x y) rect = true →
                                  ∃ c, RGBAAt b' x y = Some (stored (find c))).
Proof.
  intros Himg Halgo.
  destruct (Image_Bounds_ok h img Himg) as (rect & Hb & Hfit).
  destruct (proj1 (fits_int_spec rect) Hfit) as (Hw & Hh & _).
  exists rect.
  pose proof (zero_buf_wf rect Hw Hh) as Hwf0.
  assert (Htr : triple (h ++ [zero_buf rect]) (length h) (eq (zero_buf rect))
            (draw_Draw_Src (length h) rect img (Min rect);;
             for_range (Y (Min rect)) (Y (Max rect)) (λ y,
               for_range (X (Min rect)) (X (Max rect)) (λ x,
                 oldPixel ← RGBA_At (length h) x y;
                 let newPixel := find oldPixel in
                 RGBA_Set (length h) x y newPixel;;
                 let diff := colorDiff oldPixel newPixel in
                 algo x y (length h) diff));;
             mret (length h))
            (λ q b, q = length h ∧ wf_buf b = true ∧ Rect b = rect ∧
                    (fwd = true → ∀ x y, Point_In (mkPoint x y) rect = true →
                                         ∃ c, RGBAAt b x y = Some (stored (find c))))).
  { eapply triple_bind.
    - eapply triple_weaken; [| |apply triple_draw]; try assumption.
      + intros b <-. auto.
      + cbn beta. intros a b Hb'. exact Hb'.
    - intros []. eapply triple_bind.
      + apply triple_pass; try assumption. exact Halgo.
      + intros []. apply triple_ret. auto. }
  destruct (Htr (zero_buf rect) eq_refl) as (q & b' & E & -> & Hwf & Hr & Hdone).
  exists b'. split; [exact Hb|]. split; [|auto].
  rewrite (list_insert_id (h ++ [zero_buf rect])) in E
    by (apply list_lookup_middle; reflexivity).
  rewrite insert_snoc in E.
  unfold Dither. rewrite bind_run, Hb. cbn beta iota.
  rewrite bind_run, (NewRGBA_run rect h Hfit). cbn beta iota. exact E.
Qed.

(** * The claims *)

Lemma stored_BlackAndWhitePalette c :
  stored (BlackAndWhitePalette c) = pure_black ∨ stored (BlackAndWhitePalette c) = pure_white.
Proof.
  destruct (BlackAndWhitePalette_cases c) as [-> | ->]; [left|right]; reflexivity.
Qed.

Lemma RGBA_At_fresh (h : Heap) b x y :
  RGBA_At (length h) x y (h ++ [b]) =
  match RGBAAt b x y with Some c => Some (c, h ++ [b]) | None => None end.
Proof.
  unfold RGBA_At. rewrite bind_run. unfold deref.
  rewrite list_lookup_middle by reflexivity. reflexivity.
Qed.

(** C1.  Run with the monochrome strategy and any forward kernel (one that
    never writes to a pixel the engine has already quantized, as
    [FloydSteinberg_forward] and [Burkes_forward] show of the two kernels
    of the package) on a source it can copy ([img_ok]), [Dither] returns
    an image every pixel of which is pure black or pure white. *)
Theorem Dither_monochrome_saturated img algo (h : Heap) :
  img_ok h img → forward_kernel algo →
  ∃ rect q h',
    Image_Bounds img h = Some (rect, h) ∧
    Dither img algo BlackAndWhitePalette h = Some (q, h') ∧
    ∀ x y, Point_In (mkPoint x y) rect = true →
           RGBA_At q x y h' = Some (pure_black, h') ∨
           RGBA_At q x y h' = Some (pure_white, h').
Proof.
  intros Himg Halgo.
  destruct (Dither_run img algo BlackAndWhitePalette true h Himg Halgo)
    as (rect & b' & Hb & Hrun & Hwf & Hr & Hdone).
  exists rect, (length h), (h ++ [b']). split; [exact Hb|]. split; [exact Hrun|].
  intros x y Hin. destruct (Hdone eq_refl x y Hin) as [c Hc].
  rewrite RGBA_At_fresh, Hc.
  destruct (stored_BlackAndWhitePalette c) as [-> | ->]; auto.
Qed.

(** C2.  The monochrome strategy takes the mean [(r + g + b) / 3] of the
    three colour channels (no wrap-around occurs) and returns black
    exactly when the mean is below [65535 / 2], white otherwise; both are
    integer divisions, so the boundary is 32767. *)
Theorem BlackAndWhitePalette_threshold c :
  let '(r, g, b, _) := RGBA c in
  BlackAndWhitePalette c =
    (if (r + g + b) / 3 <? 65535 / 2 then color_Gray16 0 else color_Gray16 65535) ∧
  RGBA (color_Gray16 0) = (0, 0, 0, 65535) ∧
  RGBA (color_Gray16 65535) = (65535, 65535, 65535, 65535).
Proof.
  pose proof (BlackAndWhitePalette_mean c) as H.
  destruct (RGBA c) as [[[r g] b] a]. rewrite H.
  split; [|split; reflexivity].
  destruct ((r + g + b) / 3 <? 65535 / 2); reflexivity.
Qed.

(** On the colours the engine passes to the strategy (pixels of an RGBA
    buffer) the integer comparison agrees with comparing the exact mean
    with the exact half 32767.5. *)
Lemma BlackAndWhitePalette_threshold_pixel r g b a :
  is_rgba8 (color_RGBA r g b a) = true →
  BlackAndWhitePalette (color_RGBA r g b a) =
    (if 2 * (257 * r + 257 * g + 257 * b) <? 3 * 65535
     then color_Gray16 0 else color_Gray16 65535).
Proof.
  intros H8. pose proof (BlackAndWhitePalette_mean (color_RGBA r g b a)) as H.
  destruct (RGBA_rgba8 r g b a H8) as (E & ? & ? & ? & ?). rewrite E in H. rewrite H.
  change (65535 / 2) with 32767.
  pose proof (Z.div_mod (257 * r + 257 * g + 257 * b) 3 ltac:(lia)).
  pose proof (Z.mod_pos_bound (257 * r + 257 * g + 257 * b) 3 ltac:(lia)).
  destruct (Z.ltb_spec ((257 * r + 257 * g + 257 * b) / 3) 32767);
    destruct (Z.ltb_spec (2 * (257 * r + 257 * g + 257 * b)) (3 * 65535)); try reflexivity; lia.
Qed.

(** C4, as stated, fails: an error of 1 is lost entirely. *)
Lemma FloydSteinberg_shares_counterexample :
  shareFloydSteinberg 1 7 + shareFloydSteinberg 1 1 +
  shareFloydSteinberg 1 5 + shareFloydSteinberg 1 3 ≠ 1.
Proof. vm_compute. discriminate. Qed.

Lemma shareFloydSteinberg_div e mul :
  - 2 ^ 60 ≤ e ≤ 2 ^ 60 → 0 ≤ mul ≤ 7 → shareFloydSteinberg e mul = e * mul / 16.
Proof.
  intros He Hm. unfold shareFloydSteinberg, shr64, mul64.
  rewrite (int64_small mul) by lia. rewrite int64_small by nia.
  rewrite Z.shiftr_div_pow2 by lia. reflexivity.
Qed.

(** C4, amended.  For every error the arithmetic cannot overflow on (in
    particular every error [colorDiff] produces), the four shares of the
    four-neighbour kernel sum to at most the error and to at least the
    error minus 3, and to the error itself exactly when it is a multiple
    of 16. *)
Theorem FloydSteinberg_shares_sum e :
  - 2 ^ 60 ≤ e ≤ 2 ^ 60 →
  let s := shareFloydSteinberg e 7 + shareFloydSteinberg e 1 +
           shareFloydSteinberg e 5 + shareFloydSteinberg e 3 in
  e - 3 ≤ s ≤ e ∧ (s = e ↔ e mod 16 = 0).
Proof.
  intros He. cbn zeta. rewrite !shareFloydSteinberg_div by lia.
  pose proof (Z.div_mod e 16 ltac:(lia)). pose proof (Z.mod_pos_bound e 16 ltac:(lia)).
  pose proof (Z.div_mod (e * 7) 16 ltac:(lia)). pose proof (Z.mod_pos_bound (e * 7) 16 ltac:(lia)).
  pose proof (Z.div_mod (e * 1) 16 ltac:(lia)). pose proof (Z.mod_pos_bound (e * 1) 16 ltac:(lia)).
  pose proof (Z.div_mod (e * 5) 16 ltac:(lia)). pose proof (Z.mod_pos_bound (e * 5) 16 ltac:(lia)).
  pose proof (Z.div_mod (e * 3) 16 ltac:(lia)). pose proof (Z.mod_pos_bound (e * 3) 16 ltac:(lia)).
  lia.
Qed.

(** C5, as stated, fails: a transparent colour comes back opaque. *)
Lemma BlackAndWhitePalette_alpha_counterexample :
  alphaOf (BlackAndWhitePalette (color_RGBA 0 0 0 0)) ≠ alphaOf (color_RGBA 0 0 0 0).
Proof. vm_compute. discriminate. Qed.

(** C5, amended.  The colour the monochrome strategy returns is always
    fully opaque (alpha 65535), whatever the alpha of its input; its alpha
    equals the input's exactly when the input is fully opaque. *)
Theorem BlackAndWhitePalette_alpha c :
  alphaOf (BlackAndWhitePalette c) = 65535 ∧
  (alphaOf (BlackAndWhitePalette c) = alphaOf c ↔ alphaOf c = 65535).
Proof.
  assert (H : alphaOf (BlackAndWhitePalette c) = 65535)
    by (destruct (BlackAndWhitePalette_cases c) as [-> | ->]; reflexivity).
  rewrite H. split; [reflexivity|]. split; congruence.
Qed.



(** C7.  Every palette strategy is idempotent: the monochrome strategy,
    and the two fixed-palette strategies over any table that is not empty
    and holds [color.RGBA] entries, where they return an entry of the
    table that they map to itself. *)
Theorem palette_strategies_idempotent (WebSafe Plan9 : Palette) c :
  table_ok WebSafe = true → table_ok Plan9 = true →
  BlackAndWhitePalette (BlackAndWhitePalette c) = BlackAndWhitePalette c ∧
  (∃ q, WebSafePalette WebSafe c = Some q ∧ WebSafePalette WebSafe q = Some q) ∧
  (∃ q, Plan9Palette Plan9 c = Some q ∧ Plan9Palette Plan9 q = Some q).
Proof.
  intros Hw Hp. split; [|split].
  - destruct (BlackAndWhitePalette_cases c) as [-> | ->]; reflexivity.
  - apply Palette_Convert_idempotent, Hw.
  - apply Palette_Convert_idempotent, Hp.
Qed.

(** C8.  [Dither] never changes its source: on a source it can copy
    ([img_ok]) the buffer it returns is a new cell of the store, every
    cell that existed before the call holds what it held, and every pixel
    of the source reads as before. *)
Theorem Dither_source_unchanged img algo find (h : Heap) :
  img_ok h img → safe_kernel algo →
  ∃ q h',
    Dither img algo find h = Some (q, h') ∧
    h !! q = None ∧
    (∀ s b, h !! s = Some b → h' !! s = Some b) ∧
    (∀ x y, ∃ c, Image_At img x y h = Some (c, h) ∧ Image_At img x y h' = Some (c, h')).
Proof.
  intros Himg Halgo.
  destruct (Dither_run img algo find false h Himg Halgo)
    as (rect & b' & Hb & Hrun & Hwf & Hr & _).
  exists (length h), (h ++ [b']). split; [exact Hrun|].
  split; [apply lookup_ge_None_2; lia|].
  split; [intros s b Hs; apply lookup_app_l_Some, Hs|].
  intros x y. destruct img as [s|r f]; cbn [Image_At img_ok] in *.
  - destruct Himg as (bs & Hs & _ & Hread).
    destruct (RGBAAt_readable bs x y Hread) as [c Hc]. exists c.
    unfold RGBA_At. rewrite !bind_run. unfold deref.
    rewrite (lookup_app_l_Some _ _ _ _ Hs), Hs. unfold lift. rewrite Hc. auto.
  - exists (f x y). auto.
Qed.

(** C10.  Every pixel that can be read from the image [Dither] returns
    for a source it can copy ([img_ok]), inside its bounds or not, has
    each channel of the form [k * 0x101] with [0 <= k <= 255]: the buffer
    holds bytes, and every write keeps it so, storing the colour converted
    to 8 bits per channel. *)
Theorem Dither_output_8bit img algo find (h : Heap) :
  img_ok h img → safe_kernel algo →
  ∃ q h',
    Dither img algo find h = Some (q, h') ∧
    (∀ x y, ∃ c kr kg kb ka,
       RGBA_At q x y h' = Some (c, h') ∧
       RGBA c = (kr * 0x101, kg * 0x101, kb * 0x101, ka * 0x101) ∧
       0 ≤ kr ≤ 255 ∧ 0 ≤ kg ≤ 255 ∧ 0 ≤ kb ≤ 255 ∧ 0 ≤ ka ≤ 255) ∧
    (∀ b x y c, wf_buf b = true →
       ∃ b1, RGBASet b x y c = Some b1 ∧ wf_buf b1 = true).
Proof.
  intros Himg Halgo.
  destruct (Dither_run img algo find false h Himg Halgo)
    as (rect & b' & Hb & Hrun & Hwf & Hr & _).
  exists (length h), (h ++ [b']). split; [exact Hrun|].
  split; [|intros b x y c Hwfb;
           destruct (RGBASet_wf b x y c Hwfb) as (b1 & ? & ? & _); eauto].
  intros x y. destruct (RGBAAt_wf b' x y Hwf) as (c & Hc & H8).
  destruct c as [r g b a| | |]; try discriminate.
  destruct (RGBA_rgba8 r g b a H8) as (E & ? & ? & ? & ?).
  exists (color_RGBA r g b a), r, g, b, a.
  rewrite RGBA_At_fresh, Hc, E. repeat split; try lia. f_equal; [f_equal; [f_equal|]|]; lia.
Qed.

(** ** The seven-neighbour kernel against the spec's weight table *)

Lemma colorDiff_in_range a b : err_in_range (colorDiff a b).
Proof.
  pose proof (RGBA_range a) as Ha. pose proof (RGBA_range b) as Hb.
  unfold colorDiff, err_in_range.
  destruct (RGBA a) as [[[aR aG] aB] aA], (RGBA b) as [[[bR bG] bB] bA].
  unfold is_uint32 in *. cbn [R G B A]. unfold sub64.
  rewrite !(int64_small aR), !(int64_small aG), !(int64_small aB), !(int64_small aA) by lia.
  rewrite !(int64_small bR), !(int64_small bG), !(int64_small bB), !(int64_small bA) by lia.
  rewrite !int64_small by lia. lia.
Qed.

Lemma shareBurkes_mul e mul :
  - 2 ^ 32 ≤ e ≤ 2 ^ 32 → 0 ≤ mul ≤ 3 →
  shareBurkes e mul = Z.shiftr (e * 2 ^ mul) 5 ∧ - 2 ^ 32 ≤ shareBurkes e mul ≤ 2 ^ 32.
Proof.
  intros He Hm. unfold shareBurkes, shr64, shl64.
  rewrite (uint64_small mul) by lia. rewrite Z.shiftl_mul_pow2 by lia.
  assert (Hp : 1 ≤ 2 ^ mul ≤ 8).
  { assert (mul = 0 ∨ mul = 1 ∨ mul = 2 ∨ mul = 3) as [->|[->|[->| ->]]] by lia; cbn; lia. }
  rewrite int64_small by nia. split; [reflexivity|].
  rewrite Z.shiftr_div_pow2 by lia. change (2 ^ 5) with 32.
  pose proof (Z.div_mod (e * 2 ^ mul) 32 ltac:(lia)).
  pose proof (Z.mod_pos_bound (e * 2 ^ mul) 32 ltac:(lia)). nia.
Qed.

Lemma applyWeightsBurkes_spec orig err mul :
  err_in_range err → 0 ≤ mul ≤ 3 →
  applyWeightsBurkes orig err mul = spec_weighted orig err (2 ^ mul) 5.
Proof.
  intros (Hr & Hg & Hb & Ha) Hm. pose proof (RGBA_range orig) as Ho.
  unfold applyWeightsBurkes, spec_weighted.
  destruct (RGBA orig) as [[[oR oG] oB] oA]. unfold is_uint32 in Ho.
  destruct (shareBurkes_mul _ mul Hr Hm) as [Er ?].
  destruct (shareBurkes_mul _ mul Hg Hm) as [Eg ?].
  destruct (shareBurkes_mul _ mul Hb Hm) as [Eb ?].
  destruct (shareBurkes_mul _ mul Ha Hm) as [Ea ?].
  unfold add64. rewrite !(int64_small oR), !(int64_small oG), !(int64_small oB), !(int64_small oA) by lia.
  rewrite !int64_small by lia. rewrite Er, Eg, Eb, Ea. reflexivity.
Qed.

Lemma bind_cong {T U} (m m' : M T) (k k' : T → M U) (h : Heap) :
  m h = m' h → (∀ a h', k a h' = k' a h') → (m ≫= k) h = (m' ≫= k') h.
Proof. intros Hm Hk. rewrite !bind_run, Hm. destruct (m' h) as [[a h']|]; auto. Qed.

(** Two tables with the same offsets and entry-wise equal adjustments
    are the same kernel. *)
Lemma diffuse_ext app app' tbl tbl' x y img err :
  Forall2 (λ e e', e.1.1 = e'.1.1 ∧ e.1.2 = e'.1.2 ∧
                   ∀ c, app c err e.2 = app' c err e'.2) tbl tbl' →
  ∀ h : Heap, diffuse app tbl x y img err h = diffuse app' tbl' x y img err h.
Proof.
  induction 1 as [|[[dx dy] m] [[dx' dy'] m'] tbl tbl' (Hx & Hy & Happ) _ IH];
    intros h; [reflexivity|].
  cbn in Hx, Hy, Happ. subst dx' dy'. cbn [diffuse].
  apply bind_cong; [|intros _ h'; apply IH].
  apply bind_cong_r. intros c h'. rewrite Happ. reflexivity.
Qed.

(** C3, as stated, fails: with the numerators the claim lists, the right
    neighbour of a pixel with error 8192 would receive half of what the
    code gives it. *)
Lemma Burkes_numerators_counterexample :
  Burkes 0 0 0%nat (mkRGBAVec 8192 8192 8192 0)
    [mkRGBA [0; 0; 0; 255; 100; 100; 100; 255] 8 (mkRectangle (mkPoint 0 0) (mkPoint 2 1))]
  ≠ diffuse (λ c e n, spec_weighted c e n 5) Burkes_numerators_claimed
      0 0 0%nat (mkRGBAVec 8192 8192 8192 0)
      [mkRGBA [0; 0; 0; 255; 100; 100; 100; 255] 8 (mkRectangle (mkPoint 0 0) (mkPoint 2 1))].
Proof. vm_compute. intros H. discriminate H. Qed.

(** C3, amended.  The seven-neighbour kernel adjusts two pixels to the
    right and five in the row below (columns [x-2] to [x+2]), each
    channel by the error times an integer numerator, shifted right by 5;
    the numerators are 8, 4, 2, 4, 8, 4, 2 (the code shifts the error
    left by 3, 2, 1, 2, 3, 2, 1) and sum to 32. *)
Theorem Burkes_numerators_spec x y img err (h : Heap) :
  err_in_range err →
  Burkes x y img err h =
    diffuse (λ c e n, spec_weighted c e n 5) Burkes_numerators x y img err h ∧
  map (λ e, (e.1.1, e.1.2)) Burkes_numerators =
    [(1, 0); (2, 0); (-2, 1); (-1, 1); (0, 1); (1, 1); (2, 1)] ∧
  map (λ e, e.2) Burkes_numerators = [8; 4; 2; 4; 8; 4; 2] ∧
  sum_numerators Burkes_numerators = 32.
Proof.
  intros Herr. split; [|repeat split].
  rewrite Burkes_diffuse. apply diffuse_ext.
  unfold Burkes_table, Burkes_numerators.
  repeat (constructor; [cbn [fst snd]; split; [reflexivity|]; split; [reflexivity|];
                        intros c; rewrite applyWeightsBurkes_spec by (auto; lia); reflexivity|]).
  constructor.
Qed.

(** ** Kernels at the border *)

Lemma clamp_16 v : clamp v 0 65535 = Z.max 0 (Z.min v 65535).
Proof.
  unfold clamp. rewrite Z.gtb_ltb.
  destruct (Z.ltb_spec 65535 v); destruct (Z.ltb_spec v 0); lia.
Qed.

Lemma uint16_clamp v : uint16 (clamp v 0 65535) = Z.max 0 (Z.min v 65535).
Proof. rewrite clamp_16. unfold uint16. apply Z.mod_small. lia. Qed.

Lemma makeColor_max_min r g b a :
  makeColor r g b a =
    color_NRGBA64 (Z.max 0 (Z.min r 65535)) (Z.max 0 (Z.min g 65535))
                  (Z.max 0 (Z.min b 65535)) (Z.max 0 (Z.min a 65535)).
Proof. unfold makeColor. rewrite !uint16_clamp. reflexivity. Qed.

Lemma applyWeightsFloydSteinber_spec orig err mul :
  err_in_range err → 0 ≤ mul ≤ 7 →
  applyWeightsFloydSteinber orig err mul = spec_weighted orig err mul 4.
Proof.
  intros (Hr & Hg & Hb & Ha) Hm. pose proof (RGBA_range orig) as Ho.
  unfold applyWeightsFloydSteinber, spec_weighted.
  destruct (RGBA orig) as [[[oR oG] oB] oA]. unfold is_uint32 in Ho.
  rewrite !shareFloydSteinberg_div by lia.
  rewrite !Z.shiftr_div_pow2 by lia. change (2 ^ 4) with 16.
  assert (Hq : ∀ e, - 2 ^ 32 ≤ e ≤ 2 ^ 32 → - 2 ^ 35 ≤ e * mul / 16 ≤ 2 ^ 35).
  { intros e He. pose proof (Z.div_mod (e * mul) 16 ltac:(lia)).
    pose proof (Z.mod_pos_bound (e * mul) 16 ltac:(lia)). nia. }
  pose proof (Hq _ Hr). pose proof (Hq _ Hg). pose proof (Hq _ Hb). pose proof (Hq _ Ha).
  unfold add64.
  rewrite !(int64_small oR), !(int64_small oG), !(int64_small oB), !(int64_small oA) by lia.
  rewrite !int64_small by lia. reflexivity.
Qed.


Lemma diffuse_diffused app tbl (h : Heap) p b x y err :
  distinct_offsets tbl = true → h !! p = Some b → wf_buf b = true →
  ∃ b', diffuse app tbl x y p err h = Some (tt, <[p := b']> h) ∧
        wf_buf b' = true ∧ Rect b' = Rect b ∧ diffused app tbl err x y b b'.
Proof.
  intros Hd Hb Hwf.
  assert (Hp : (p < length h)%nat) by (eapply lookup_lt_Some; eauto).
  destruct (triple_diffuse h p Hp app x y err tbl Hd b Hwf b eq_refl)
    as ([] & b' & E & Hwf' & Hr' & Hat).
  rewrite (list_insert_id h p b Hb) in E. exists b'. auto.
Qed.

(** The adjustments of two tables agree entry by entry. *)
Lemma weight_at_ext (app app' : Color → RGBAVec → Z → Color) err tbl tbl' :
  Forall2 (λ e e', e.1.1 = e'.1.1 ∧ e.1.2 = e'.1.2 ∧
                   ∀ c, app c err e.2 = app' c err e'.2) tbl tbl' →
  ∀ dx dy, match weight_at tbl dx dy with
           | Some m => ∃ m', weight_at tbl' dx dy = Some m' ∧
                             ∀ c, app c err m = app' c err m'
           | None => weight_at tbl' dx dy = None
           end.
Proof.
  induction 1 as [|[[x1 y1] m] [[x2 y2] m'] tbl tbl' (Hx & Hy & Happ) _ IH];
    intros dx dy; cbn [weight_at]; [reflexivity|].
  cbn in Hx, Hy, Happ. subst x2 y2.
  destruct ((dx =? x1) && (dy =? y1)); [eauto|apply IH].
Qed.

Lemma diffused_ext (app app' : Color → RGBAVec → Z → Color) err tbl tbl' x y b b' :
  Forall2 (λ e e', e.1.1 = e'.1.1 ∧ e.1.2 = e'.1.2 ∧
                   ∀ c, app c err e.2 = app' c err e'.2) tbl tbl' →
  diffused app tbl err x y b b' → diffused app' tbl' err x y b b'.
Proof.
  intros HF Hd x' y'. rewrite Hd.
  destruct (Point_In (mkPoint x' y') (Rect b)); [|reflexivity].
  pose proof (weight_at_ext app app' err tbl tbl' HF (x' - x) (y' - y)) as H.
  destruct (weight_at tbl (x' - x) (y' - y)) as [m|].
  - destruct H as (m' & -> & Happ).
    destruct (RGBAAt b x' y') as [c|]; [cbn; rewrite Happ|]; reflexivity.
  - rewrite H. reflexivity.
Qed.

(** The spec's formula with its shift is the plain arithmetic of
    [spec_share]. *)
Lemma spec_weighted_share c e n s :
  0 ≤ s → spec_weighted c e n s = spec_share c e n (2 ^ s).
Proof.
  intros Hs. unfold spec_weighted, spec_share, saturate16.
  destruct (RGBA c) as [[[oR oG] oB] oA].
  rewrite makeColor_max_min, !Z.shiftr_div_pow2 by lia. reflexivity.
Qed.

Lemma FloydSteinberg_shares err :
  err_in_range err →
  Forall2 (λ e e', e.1.1 = e'.1.1 ∧ e.1.2 = e'.1.2 ∧
                   ∀ c, applyWeightsFloydSteinber c err e.2 = spec_share c err e'.2 16)
    FloydSteinberg_table [(1, 0, 7); (1, 1, 1); (0, 1, 5); (-1, 1, 3)].
Proof.
  intros Herr. unfold FloydSteinberg_table.
  repeat (constructor;
          [cbn [fst snd]; split; [reflexivity|]; split; [reflexivity|]; intros c;
           rewrite applyWeightsFloydSteinber_spec by (auto; lia);
           apply (spec_weighted_share c err _ 4); lia|]).
  constructor.
Qed.

Lemma Burkes_shares err :
  err_in_range err →
  Forall2 (λ e e', e.1.1 = e'.1.1 ∧ e.1.2 = e'.1.2 ∧
                   ∀ c, applyWeightsBurkes c err e.2 = spec_share c err e'.2 32)
    Burkes_table [(1, 0, 8); (2, 0, 4); (-2, 1, 2); (-1, 1, 4); (0, 1, 8); (1, 1, 4); (2, 1, 2)].
Proof.
  intros Herr. unfold Burkes_table.
  repeat (constructor;
          [cbn [fst snd]; split; [reflexivity|]; split; [reflexivity|]; intros c;
           rewrite applyWeightsBurkes_spec by (auto; lia);
           apply (spec_weighted_share c err _ 5); lia|]).
  constructor.
Qed.

(** C9, as stated, fails: the top-right pixel of [uniform_sized] is inside
    its bounds and the right neighbour of that pixel is outside, but
    [Dither] does not complete on this image with either kernel, since
    [image.NewRGBA] panics before any pixel is visited. *)
Lemma kernels_boundary_safe_counterexample :
  Image_Bounds uniform_sized [] =
    Some (mkRectangle (mkPoint (-1000000000) (-1000000000))
                      (mkPoint 1000000000 1000000000), []) ∧
  Point_In (mkPoint 999999999 (-1000000000))
           (mkRectangle (mkPoint (-1000000000) (-1000000000))
                        (mkPoint 1000000000 1000000000)) = true ∧
  Point_In (mkPoint (999999999 + 1) (-1000000000))
           (mkRectangle (mkPoint (-1000000000) (-1000000000))
                        (mkPoint 1000000000 1000000000)) = false ∧
  Dither uniform_sized FloydSteinberg (λ c, c) [] = None ∧
  Dither uniform_sized Burkes (λ c, c) [] = None.
Proof. repeat split. Qed.

(** C9, amended.  On a buffer laid out by [NewRGBA] both kernels run to
    the end at any position, whichever of their offsets fall outside the
    bounds: reading outside returns the zero colour and writing outside
    does nothing, without touching [Pix].  Every inside pixel at an offset
    receives the share of its entry, unscaled by what fell outside: for
    the four-neighbour kernel the error times 7, 1, 5, 3 over 16, for the
    seven-neighbour kernel the error times 8, 4, 2, 4, 8, 4, 2 over 32,
    rounded down, added to the channel and brought into [[0, 65535]]; no
    other pixel changes.  So [Dither] with either kernel completes on
    every image [image.NewRGBA] can allocate the copy of ([img_ok]), a
    single pixel included. *)
Theorem kernels_boundary_safe (h : Heap) p b x y err :
  h !! p = Some b → wf_buf b = true →
  (∃ b', FloydSteinberg x y p err h = Some (tt, <[p := b']> h) ∧
         wf_buf b' = true ∧ Rect b' = Rect b ∧
         diffused applyWeightsFloydSteinber
           [(1, 0, 7); (1, 1, 1); (0, 1, 5); (-1, 1, 3)] err x y b b' ∧
         (err_in_range err →
          diffused (λ c e n, spec_share c e n 16)
            [(1, 0, 7); (1, 1, 1); (0, 1, 5); (-1, 1, 3)] err x y b b')) ∧
  (∃ b', Burkes x y p err h = Some (tt, <[p := b']> h) ∧
         wf_buf b' = true ∧ Rect b' = Rect b ∧
         diffused applyWeightsBurkes
           [(1, 0, 3); (2, 0, 2); (-2, 1, 1); (-1, 1, 2); (0, 1, 3); (1, 1, 2); (2, 1, 1)]
           err x y b b' ∧
         (err_in_range err →
          diffused (λ c e n, spec_share c e n 32)
            [(1, 0, 8); (2, 0, 4); (-2, 1, 2); (-1, 1, 4); (0, 1, 8); (1, 1, 4); (2, 1, 2)]
            err x y b b')) ∧
  (∀ xo yo c, Point_In (mkPoint xo yo) (Rect b) = false →
              RGBA_At p xo yo h = Some (color_RGBA 0 0 0 0, h) ∧
              RGBA_Set p xo yo c h = Some (tt, h)) ∧
  (∀ img find (hh : Heap), img_ok hh img →
                           is_Some (Dither img FloydSteinberg find hh) ∧
                           is_Some (Dither img Burkes find hh)).
Proof.
  intros Hb Hwf. split; [|split; [|split]].
  - rewrite FloydSteinberg_diffuse.
    destruct (diffuse_diffused applyWeightsFloydSteinber FloydSteinberg_table h p b x y err)
      as (b' & E & Hwf' & Hr' & Hd); auto.
    exists b'. repeat split; try assumption.
    intros Herr. exact (diffused_ext _ _ _ _ _ _ _ _ _ (FloydSteinberg_shares err Herr) Hd).
  - rewrite Burkes_diffuse.
    destruct (diffuse_diffused applyWeightsBurkes Burkes_table h p b x y err)
      as (b' & E & Hwf' & Hr' & Hd); auto.
    exists b'. repeat split; try assumption.
    intros Herr. exact (diffused_ext _ _ _ _ _ _ _ _ _ (Burkes_shares err Herr) Hd).
  - intros xo yo c Hout. split.
    + unfold RGBA_At. rewrite bind_run. unfold deref. rewrite Hb.
      unfold lift. rewrite (RGBAAt_outside b xo yo Hout). reflexivity.
    + unfold RGBA_Set. rewrite bind_run. unfold deref. rewrite Hb. cbn beta iota.
      rewrite bind_run. unfold lift, RGBASet. rewrite Hout. cbn [negb].
      unfold assign. rewrite Hb, (list_insert_id h p b Hb). reflexivity.
  - intros img find hh Himg. split.
    + destruct (Dither_run img FloydSteinberg find true hh Himg FloydSteinberg_forward)
        as (rect & b' & _ & -> & _). eauto.
    + destruct (Dither_run img Burkes find true hh Himg Burkes_forward)
        as (rect & b' & _ & -> & _). eauto.
Qed.

(** * Concrete runs *)

Lemma checker_2x2_ok : img_ok [] checker_2x2.
Proof. reflexivity. Qed.

Lemma empty_strip_ok : img_ok [] empty_strip.
Proof. reflexivity. Qed.

Lemma grey_3x2_ok : img_ok [] grey_3x2.
Proof. reflexivity. Qed.

Lemma two_pixels_ok : img_ok [two_pixels] (Image_RGBA 0%nat).
Proof.
  exists two_pixels. split; [reflexivity|]. split; [reflexivity|].
  apply wf_buf_readable. reflexivity.
Qed.

Lemma Dither_monochrome_saturated_witness :
  img_ok [] checker_2x2 ∧ forward_kernel FloydSteinberg ∧
  ∃ rect q h',
    Image_Bounds checker_2x2 [] = Some (rect, []) ∧
    Dither checker_2x2 FloydSteinberg BlackAndWhitePalette [] = Some (q, h') ∧
    ∀ x y, Point_In (mkPoint x y) rect = true →
           RGBA_At q x y h' = Some (pure_black, h') ∨
           RGBA_At q x y h' = Some (pure_white, h').
Proof.
  split; [exact checker_2x2_ok|]. split; [exact FloydSteinberg_forward|].
  exact (Dither_monochrome_saturated checker_2x2 FloydSteinberg []
           checker_2x2_ok FloydSteinberg_forward).
Defined.

Lemma Burkes_numerators_spec_witness :
  err_in_range (mkRGBAVec 8192 (-300) 65535 0) ∧
  Burkes 0 0 0%nat (mkRGBAVec 8192 (-300) 65535 0) [two_pixels] =
    diffuse (λ c e n, spec_weighted c e n 5) Burkes_numerators
      0 0 0%nat (mkRGBAVec 8192 (-300) 65535 0) [two_pixels] ∧
  map (λ e, (e.1.1, e.1.2)) Burkes_numerators =
    [(1, 0); (2, 0); (-2, 1); (-1, 1); (0, 1); (1, 1); (2, 1)] ∧
  map (λ e, e.2) Burkes_numerators = [8; 4; 2; 4; 8; 4; 2] ∧
  sum_numerators Burkes_numerators = 32.
Proof.
  assert (H : err_in_range (mkRGBAVec 8192 (-300) 65535 0))
    by (unfold err_in_range; cbn [R G B A]; lia).
  split; [exact H|].
  exact (Burkes_numerators_spec 0 0 0%nat (mkRGBAVec 8192 (-300) 65535 0) [two_pixels] H).
Defined.

Lemma FloydSteinberg_shares_sum_witness :
  - 2 ^ 60 ≤ -37 ≤ 2 ^ 60 ∧
  let s := shareFloydSteinberg (-37) 7 + shareFloydSteinberg (-37) 1 +
           shareFloydSteinberg (-37) 5 + shareFloydSteinberg (-37) 3 in
  -37 - 3 ≤ s ≤ -37 ∧ (s = -37 ↔ (-37) mod 16 = 0).
Proof.
  assert (H : - 2 ^ 60 ≤ -37 ≤ 2 ^ 60) by lia.
  split; [exact H|]. exact (FloydSteinberg_shares_sum (-37) H).
Defined.


(** An image of zero width, run: [Dither] returns an empty buffer with
    the bounds of the source. *)
Lemma Dither_empty_strip_run :
  img_ok [] empty_strip ∧
  Dither empty_strip Burkes BlackAndWhitePalette [] =
    Some (0%nat, [mkRGBA [] 0 (mkRectangle (mkPoint 3 5) (mkPoint 3 9))]) ∧
  RGBA_Bounds 0%nat [mkRGBA [] 0 (mkRectangle (mkPoint 3 5) (mkPoint 3 9))] =
    Some (mkRectangle (mkPoint 3 5) (mkPoint 3 9),
          [mkRGBA [] 0 (mkRectangle (mkPoint 3 5) (mkPoint 3 9))]).
Proof. repeat split. Qed.

(** A 1 x 1 source whose colour breaks the contract of [color.Color]
    (channels above [0xffff]), run with the identity strategy: the copy
    holds what the general path of [draw.Draw] computes, not the high
    bytes of the channels. *)
Lemma Dither_out_of_contract_run :
  channels16 (color_RGBA64 0x20000 0x2300 0xffffffff 0xffff) = false ∧
  Dither (Image_Func (mkRectangle (mkPoint 0 0) (mkPoint 1 1))
                     (λ _ _, color_RGBA64 0x20000 0x2300 0xffffffff 0xffff))
         Burkes (λ c, c) [] =
    Some (0%nat, [mkRGBA [255; 35; 0; 255] 4 (mkRectangle (mkPoint 0 0) (mkPoint 1 1))]) ∧
  stored (color_RGBA64 0x20000 0x2300 0xffffffff 0xffff) = color_RGBA 0 35 255 255.
Proof. repeat split. Qed.

Lemma palette_strategies_idempotent_witness :
  table_ok WebSafe_table = true ∧ table_ok gray_ramp = true ∧
  BlackAndWhitePalette (BlackAndWhitePalette (color_RGBA64 1000 40000 65535 65535)) =
    BlackAndWhitePalette (color_RGBA64 1000 40000 65535 65535) ∧
  (∃ q, WebSafePalette WebSafe_table (color_RGBA64 1000 40000 65535 65535) = Some q ∧
        WebSafePalette WebSafe_table q = Some q) ∧
  (∃ q, Plan9Palette gray_ramp (color_RGBA64 1000 40000 65535 65535) = Some q ∧
        Plan9Palette gray_ramp q = Some q).
Proof.
  split; [reflexivity|]. split; [reflexivity|].
  exact (palette_strategies_idempotent WebSafe_table gray_ramp
           (color_RGBA64 1000 40000 65535 65535) eq_refl eq_refl).
Defined.

Lemma Dither_source_unchanged_witness :
  img_ok [two_pixels] (Image_RGBA 0%nat) ∧ safe_kernel FloydSteinberg ∧
  ∃ q h',
    Dither (Image_RGBA 0%nat) FloydSteinberg BlackAndWhitePalette [two_pixels] = Some (q, h') ∧
    [two_pixels] !! q = None ∧
    (∀ s b, [two_pixels] !! s = Some b → h' !! s = Some b) ∧
    (∀ x y, ∃ c, Image_At (Image_RGBA 0%nat) x y [two_pixels] = Some (c, [two_pixels]) ∧
                 Image_At (Image_RGBA 0%nat) x y h' = Some (c, h')).
Proof.
  split; [exact two_pixels_ok|].
  split; [exact (forward_kernel_safe FloydSteinberg FloydSteinberg_forward)|].
  exact (Dither_source_unchanged (Image_RGBA 0%nat) FloydSteinberg BlackAndWhitePalette
           [two_pixels] two_pixels_ok
           (forward_kernel_safe FloydSteinberg FloydSteinberg_forward)).
Defined.

Lemma kernels_boundary_safe_witness :
  [three_by_two] !! 0%nat = Some three_by_two ∧ wf_buf three_by_two = true ∧
  (∃ b', FloydSteinberg 2 0 0%nat (mkRGBAVec 4096 (-8192) 16384 0) [three_by_two]
           = Some (tt, <[0%nat := b']> [three_by_two]) ∧
         wf_buf b' = true ∧ Rect b' = Rect three_by_two ∧
         diffused applyWeightsFloydSteinber
           [(1, 0, 7); (1, 1, 1); (0, 1, 5); (-1, 1, 3)]
           (mkRGBAVec 4096 (-8192) 16384 0) 2 0 three_by_two b' ∧
         (err_in_range (mkRGBAVec 4096 (-8192) 16384 0) →
          diffused (λ c e n, spec_share c e n 16)
            [(1, 0, 7); (1, 1, 1); (0, 1, 5); (-1, 1, 3)]
            (mkRGBAVec 4096 (-8192) 16384 0) 2 0 three_by_two b')) ∧
  (∃ b', Burkes 2 0 0%nat (mkRGBAVec 4096 (-8192) 16384 0) [three_by_two]
           = Some (tt, <[0%nat := b']> [three_by_two]) ∧
         wf_buf b' = true ∧ Rect b' = Rect three_by_two ∧
         diffused applyWeightsBurkes
           [(1, 0, 3); (2, 0, 2); (-2, 1, 1); (-1, 1, 2); (0, 1, 3); (1, 1, 2); (2, 1, 1)]
           (mkRGBAVec 4096 (-8192) 16384 0) 2 0 three_by_two b' ∧
         (err_in_range (mkRGBAVec 4096 (-8192) 16384 0) →
          diffused (λ c e n, spec_share c e n 32)
            [(1, 0, 8); (2, 0, 4); (-2, 1, 2); (-1, 1, 4); (0, 1, 8); (1, 1, 4); (2, 1, 2)]
            (mkRGBAVec 4096 (-8192) 16384 0) 2 0 three_by_two b')) ∧
  (∀ xo yo c, Point_In (mkPoint xo yo) (Rect three_by_two) = false →
              RGBA_At 0%nat xo yo [three_by_two] = Some (color_RGBA 0 0 0 0, [three_by_two]) ∧
              RGBA_Set 0%nat xo yo c [three_by_two] = Some (tt, [three_by_two])) ∧
  (∀ img find (hh : Heap), img_ok hh img →
                           is_Some (Dither img FloydSteinberg find hh) ∧
                           is_Some (Dither img Burkes find hh)).
Proof.
  split; [reflexivity|]. split; [reflexivity|].
  exact (kernels_boundary_safe [three_by_two] 0%nat three_by_two 2 0
           (mkRGBAVec 4096 (-8192) 16384 0) eq_refl eq_refl).
Defined.

(** The two kernels at pixel [(2, 0)] of a 3 x 2 buffer, run: the
    neighbours to the right fall outside and nothing is written for them;
    the pixels below receive their unscaled shares (for the four-neighbour
    kernel 3/16 at [(1, 1)] and 5/16 at [(2, 1)]). *)
Lemma FloydSteinberg_border_run :
  FloydSteinberg 2 0 0%nat (mkRGBAVec 4096 (-8192) 16384 0) [three_by_two] =
    Some (tt, [mkRGBA [10; 20; 30; 255;     40; 50; 60; 255;     70; 80; 90; 255;
                       100; 110; 120; 255;  133; 134; 162; 255;  165; 160; 200; 255]
                      12 (mkRectangle (mkPoint 0 0) (mkPoint 3 2))]) ∧
  133 = (130 * 257 + 4096 * 3 / 16) / 256 ∧ 165 = (160 * 257 + 4096 * 5 / 16) / 256.
Proof. repeat split. Qed.

Lemma Burkes_border_run :
  Burkes 2 0 0%nat (mkRGBAVec 4096 (-8192) 16384 0) [three_by_two] =
    Some (tt, [mkRGBA [10; 20; 30; 255;     40; 50; 60; 255;     70; 80; 90; 255;
                       101; 108; 124; 255;  132; 136; 158; 255;  164; 162; 196; 255]
                      12 (mkRectangle (mkPoint 0 0) (mkPoint 3 2))]) ∧
  101 = (100 * 257 + 4096 * 2 / 32) / 256 ∧ 132 = (130 * 257 + 4096 * 4 / 32) / 256 ∧
  164 = (160 * 257 + 4096 * 8 / 32) / 256.
Proof. repeat split. Qed.

Lemma Dither_output_8bit_witness :
  img_ok [] checker_2x2 ∧ safe_kernel Burkes ∧
  ∃ q h',
    Dither checker_2x2 Burkes (λ c, c) [] = Some (q, h') ∧
    (∀ x y, ∃ c kr kg kb ka,
       RGBA_At q x y h' = Some (c, h') ∧
       RGBA c = (kr * 0x101, kg * 0x101, kb * 0x101, ka * 0x101) ∧
       0 ≤ kr ≤ 255 ∧ 0 ≤ kg ≤ 255 ∧ 0 ≤ kb ≤ 255 ∧ 0 ≤ ka ≤ 255) ∧
    (∀ b x y c, wf_buf b = true →
       ∃ b1, RGBASet b x y c = Some b1 ∧ wf_buf b1 = true).
Proof.
  split; [exact checker_2x2_ok|]. split; [exact (forward_kernel_safe Burkes Burkes_forward)|].
  exact (Dither_output_8bit checker_2x2 Burkes (λ c, c) []
           checker_2x2_ok (forward_kernel_safe Burkes Burkes_forward)).
Defined.

(** * Further properties of the package *)

(** ** Colour arithmetic *)

(** [clamp] with [min <= max] returns a value of [[min, max]]: the
    value itself when it lies inside, the nearer end otherwise. *)
Theorem clamp_range val min max :
  min ≤ max →
  min ≤ clamp val min max ≤ max ∧
  (min ≤ val ≤ max → clamp val min max = val) ∧
  (val < min → clamp val min max = min) ∧
  (max < val → clamp val min max = max).
Proof.
  intros Hle. unfold clamp. rewrite Z.gtb_ltb.
  destruct (Z.ltb_spec max val); destruct (Z.ltb_spec val min); repeat split; lia.
Qed.

Lemma clamp_range_witness :
  0 ≤ 65535 ∧
  0 ≤ clamp 70000 0 65535 ≤ 65535 ∧
  (0 ≤ 70000 ≤ 65535 → clamp 70000 0 65535 = 70000) ∧
  (70000 < 0 → clamp 70000 0 65535 = 0) ∧
  (65535 < 70000 → clamp 70000 0 65535 = 65535).
Proof.
  assert (H : 0 ≤ 65535) by lia. split; [exact H|]. exact (clamp_range 70000 0 65535 H).
Defined.

(** X1.  [makeColor] saturates: whatever the four integers, each channel
    of the colour it builds is the integer brought into [[0, 65535]] (the
    conversion to [uint16] never wraps), so four channels already in
    range are kept, and building a colour from the fields of the result
    gives the result again. *)
Theorem makeColor_saturates r g b a :
  makeColor r g b a =
    color_NRGBA64 (Z.max 0 (Z.min r 65535)) (Z.max 0 (Z.min g 65535))
                  (Z.max 0 (Z.min b 65535)) (Z.max 0 (Z.min a 65535)) ∧
  (0 ≤ r ≤ 65535 → 0 ≤ g ≤ 65535 → 0 ≤ b ≤ 65535 → 0 ≤ a ≤ 65535 →
   makeColor r g b a = color_NRGBA64 r g b a) ∧
  makeColor (Z.max 0 (Z.min r 65535)) (Z.max 0 (Z.min g 65535))
            (Z.max 0 (Z.min b 65535)) (Z.max 0 (Z.min a 65535)) = makeColor r g b a.
Proof.
  rewrite !makeColor_max_min. split; [reflexivity|]. split.
  - intros Hr Hg Hb Ha. f_equal; lia.
  - f_equal; lia.
Qed.

Lemma colorDiff_channels a b :
  let '(aR, aG, aB, aA) := RGBA a in
  let '(bR, bG, bB, bA) := RGBA b in
  colorDiff a b = mkRGBAVec (aR - bR) (aG - bG) (aB - bB) (aA - bA).
Proof.
  pose proof (RGBA_range a) as Ha. pose proof (RGBA_range b) as Hb. unfold colorDiff.
  destruct (RGBA a) as [[[aR aG] aB] aA], (RGBA b) as [[[bR bG] bB] bA].
  unfold is_uint32 in *. unfold sub64.
  rewrite !(int64_small aR), !(int64_small aG), !(int64_small aB), !(int64_small aA) by lia.
  rewrite !(int64_small bR), !(int64_small bG), !(int64_small bB), !(int64_small bA) by lia.
  rewrite !int64_small by lia. reflexivity.
Qed.

Lemma colorDiff_same_channels a b : RGBA b = RGBA a → colorDiff a b = zero_err.
Proof.
  intros E. pose proof (colorDiff_channels a b) as H. rewrite E in H.
  destruct (RGBA a) as [[[aR aG] aB] aA]. rewrite H, !Z.sub_diag. reflexivity.
Qed.

(** X2.  [colorDiff] is the exact channel-wise difference of the two
    colours' [RGBA()] values (the [int64] subtraction cannot wrap), so it
    is zero on equal colours and changes sign when its arguments are
    swapped. *)
Theorem colorDiff_exact a b :
  (let '(aR, aG, aB, aA) := RGBA a in
   let '(bR, bG, bB, bA) := RGBA b in
   colorDiff a b = mkRGBAVec (aR - bR) (aG - bG) (aB - bB) (aA - bA)) ∧
  colorDiff a a = zero_err ∧
  R (colorDiff b a) = - R (colorDiff a b) ∧ G (colorDiff b a) = - G (colorDiff a b) ∧
  B (colorDiff b a) = - B (colorDiff a b) ∧ A (colorDiff b a) = - A (colorDiff a b).
Proof.
  pose proof (colorDiff_channels a b) as Hab. pose proof (colorDiff_channels b a) as Hba.
  pose proof (colorDiff_channels a a) as Haa.
  destruct (RGBA a) as [[[aR aG] aB] aA], (RGBA b) as [[[bR bG] bB] bA].
  rewrite Hab, Hba, Haa. cbn [R G B A]. rewrite !Z.sub_diag.
  repeat split; lia.
Qed.

(** ** Shares and weights of the kernels *)

Lemma shift5_div v : Z.shiftr v 5 = v / 32.
Proof. rewrite Z.shiftr_div_pow2 by lia. reflexivity. Qed.

(** X3.  The seven shares of the seven-neighbour kernel are each rounded
    down: for every error the arithmetic cannot overflow on they sum to at
    most the error and to at least the error minus 6, and to the error
    itself exactly when it is a multiple of 16. *)
Theorem Burkes_shares_sum e :
  - 2 ^ 32 ≤ e ≤ 2 ^ 32 →
  let s := shareBurkes e 3 + shareBurkes e 2 + shareBurkes e 1 + shareBurkes e 2 +
           shareBurkes e 3 + shareBurkes e 2 + shareBurkes e 1 in
  e - 6 ≤ s ≤ e ∧ (s = e ↔ e mod 16 = 0).
Proof.
  intros He. cbn zeta.
  destruct (shareBurkes_mul e 3 He ltac:(lia)) as [-> _].
  destruct (shareBurkes_mul e 2 He ltac:(lia)) as [-> _].
  destruct (shareBurkes_mul e 1 He ltac:(lia)) as [-> _].
  rewrite !shift5_div. change (2 ^ 3) with 8. change (2 ^ 2) with 4. change (2 ^ 1) with 2.
  pose proof (Z.div_mod e 16 ltac:(lia)). pose proof (Z.mod_pos_bound e 16 ltac:(lia)).
  pose proof (Z.div_mod (e * 8) 32 ltac:(lia)). pose proof (Z.mod_pos_bound (e * 8) 32 ltac:(lia)).
  pose proof (Z.div_mod (e * 4) 32 ltac:(lia)). pose proof (Z.mod_pos_bound (e * 4) 32 ltac:(lia)).
  pose proof (Z.div_mod (e * 2) 32 ltac:(lia)). pose proof (Z.mod_pos_bound (e * 2) 32 ltac:(lia)).
  lia.
Qed.

Lemma Burkes_shares_sum_witness :
  - 2 ^ 32 ≤ 15 ≤ 2 ^ 32 ∧
  let s := shareBurkes 15 3 + shareBurkes 15 2 + shareBurkes 15 1 + shareBurkes 15 2 +
           shareBurkes 15 3 + shareBurkes 15 2 + shareBurkes 15 1 in
  15 - 6 ≤ s ≤ 15 ∧ (s = 15 ↔ 15 mod 16 = 0).
Proof.
  assert (H : - 2 ^ 32 ≤ 15 ≤ 2 ^ 32) by lia.
  split; [exact H|]. exact (Burkes_shares_sum 15 H).
Defined.

(** X4.  The four-neighbour kernel is the table right 7, below-right 1,
    below 5, below-left 3 over 16: on every error the arithmetic cannot
    overflow on, it adjusts each of these neighbours, in this order, by
    [current + (error * weight) >> 4] per channel, and the weights sum to
    16. *)
Theorem FloydSteinberg_weights_spec x y img err (h : Heap) :
  err_in_range err →
  FloydSteinberg x y img err h =
    diffuse (λ c e n, spec_weighted c e n 4) FloydSteinberg_table x y img err h ∧
  FloydSteinberg_table = [(1, 0, 7); (1, 1, 1); (0, 1, 5); (-1, 1, 3)] ∧
  sum_numerators FloydSteinberg_table = 16.
Proof.
  intros Herr. split; [|split; reflexivity].
  rewrite FloydSteinberg_diffuse. apply diffuse_ext. unfold FloydSteinberg_table.
  repeat (constructor; [cbn [fst snd]; split; [reflexivity|]; split; [reflexivity|];
                        intros c; rewrite applyWeightsFloydSteinber_spec by (auto; lia);
                        reflexivity|]).
  constructor.
Qed.

Lemma FloydSteinberg_weights_spec_witness :
  err_in_range (mkRGBAVec 8192 (-300) 65535 0) ∧
  FloydSteinberg 0 0 0%nat (mkRGBAVec 8192 (-300) 65535 0) [two_pixels] =
    diffuse (λ c e n, spec_weighted c e n 4) FloydSteinberg_table
      0 0 0%nat (mkRGBAVec 8192 (-300) 65535 0) [two_pixels] ∧
  FloydSteinberg_table = [(1, 0, 7); (1, 1, 1); (0, 1, 5); (-1, 1, 3)] ∧
  sum_numerators FloydSteinberg_table = 16.
Proof.
  assert (H : err_in_range (mkRGBAVec 8192 (-300) 65535 0))
    by (unfold err_in_range; cbn [R G B A]; lia).
  split; [exact H|].
  exact (FloydSteinberg_weights_spec 0 0 0%nat (mkRGBAVec 8192 (-300) 65535 0) [two_pixels] H).
Defined.

(** ** Neighbour adjustment with a zero error *)

Lemma shareFloydSteinberg_zero mul : shareFloydSteinberg 0 mul = 0.
Proof. reflexivity. Qed.

Lemma shareBurkes_zero mul : shareBurkes 0 mul = 0.
Proof. unfold shareBurkes, shl64. rewrite Z.shiftl_0_l. reflexivity. Qed.

Lemma uint8_small z : 0 ≤ z < 256 → uint8 z = z.
Proof. intros. unfold uint8. apply Z.mod_small. lia. Qed.

(** What [Set] stores for a non-premultiplied 16-bit colour: the colour
    channels are multiplied by alpha, and the high byte is kept. *)
Lemma stored_NRGBA64 r g b a :
  0 ≤ r ≤ 65535 → 0 ≤ g ≤ 65535 → 0 ≤ b ≤ 65535 → 0 ≤ a ≤ 65535 →
  stored (color_NRGBA64 r g b a) =
    color_RGBA (r * a / 65535 / 256) (g * a / 65535 / 256) (b * a / 65535 / 256) (a / 256).
Proof.
  intros Hr Hg Hb Ha. unfold stored. cbn [RGBAModel_Convert RGBA].
  rewrite (uint32_small r), (uint32_small g), (uint32_small b), (uint32_small a) by lia.
  assert (Hq : ∀ v, 0 ≤ v ≤ 65535 →
            uint8 (uint8 (Z.shiftr (uint32 (v * a) / 65535) 8)) = v * a / 65535 / 256).
  { intros v Hv. assert (0 ≤ v * a ≤ 65535 * 65535) by nia.
    rewrite uint32_small by lia. rewrite Z.shiftr_div_pow2 by lia. change (2 ^ 8) with 256.
    assert (0 ≤ v * a / 65535 ≤ 65535)
      by (split; [apply Z.div_pos; lia|apply Z.div_le_upper_bound; lia]).
    assert (0 ≤ v * a / 65535 / 256 < 256)
      by (split; [apply Z.div_pos; lia|apply Z.div_lt_upper_bound; lia]).
    rewrite !(uint8_small (v * a / 65535 / 256)) by lia. reflexivity. }
  rewrite !Hq by lia. f_equal.
  rewrite Z.shiftr_div_pow2 by lia. change (2 ^ 8) with 256.
  assert (0 ≤ a / 256 < 256)
    by (split; [apply Z.div_pos; lia|apply Z.div_lt_upper_bound; lia]).
  rewrite !(uint8_small (a / 256)) by lia. reflexivity.
Qed.

Lemma adjust_zero_pixel r g b a :
  is_rgba8 (color_RGBA r g b a) = true →
  stored (makeColor (257 * r) (257 * g) (257 * b) (257 * a)) =
    color_RGBA (257 * r * (257 * a) / 65535 / 256) (257 * g * (257 * a) / 65535 / 256)
               (257 * b * (257 * a) / 65535 / 256) a.
Proof.
  intros H8. destruct (RGBA_rgba8 r g b a H8) as (_ & Hr & Hg & Hb & Ha).
  rewrite makeColor_max_min.
  rewrite !Z.max_r, !Z.min_l by lia. rewrite stored_NRGBA64 by lia.
  f_equal. pose proof (Z.div_mod (257 * a) 256 ltac:(lia)).
  pose proof (Z.mod_pos_bound (257 * a) 256 ltac:(lia)). lia.
Qed.

Lemma applyWeights_zero r g b a mul :
  is_rgba8 (color_RGBA r g b a) = true →
  applyWeightsFloydSteinber (color_RGBA r g b a) zero_err mul =
    makeColor (257 * r) (257 * g) (257 * b) (257 * a) ∧
  applyWeightsBurkes (color_RGBA r g b a) zero_err mul =
    makeColor (257 * r) (257 * g) (257 * b) (257 * a).
Proof.
  intros H8. destruct (RGBA_rgba8 r g b a H8) as (E & Hr & Hg & Hb & Ha). split.
  - unfold applyWeightsFloydSteinber. rewrite E. cbn [zero_err R G B A].
    rewrite !shareFloydSteinberg_zero. unfold add64. rewrite !Z.add_0_r.
    rewrite !(int64_small (257 * r)), !(int64_small (257 * g)),
      !(int64_small (257 * b)), !(int64_small (257 * a)) by lia. reflexivity.
  - unfold applyWeightsBurkes. rewrite E. cbn [zero_err R G B A].
    rewrite !shareBurkes_zero. unfold add64. rewrite !Z.add_0_r.
    rewrite !(int64_small (257 * r)), !(int64_small (257 * g)),
      !(int64_small (257 * b)), !(int64_small (257 * a)) by lia. reflexivity.
Qed.

Lemma high_byte v : 0 ≤ v < 256 → 257 * v / 256 = v.
Proof.
  intros Hv. pose proof (Z.div_mod (257 * v) 256 ltac:(lia)).
  pose proof (Z.mod_pos_bound (257 * v) 256 ltac:(lia)). lia.
Qed.

Lemma adjust_zero_opaque r g b :
  is_rgba8 (color_RGBA r g b 255) = true →
  stored (makeColor (257 * r) (257 * g) (257 * b) (257 * 255)) = color_RGBA r g b 255.
Proof.
  intros H8. destruct (RGBA_rgba8 r g b 255 H8) as (_ & Hr & Hg & Hb & _).
  rewrite (adjust_zero_pixel r g b 255 H8). change (257 * 255) with 65535.
  rewrite !Z.div_mul by lia. rewrite !high_byte by lia. reflexivity.
Qed.

(** X5.  Adjusting a pixel by a zero error does not always return it: the
    value read from the buffer, already multiplied by alpha, is written
    back as a non-premultiplied colour, so its colour channels are
    multiplied by alpha once more.  A fully opaque pixel is returned
    unchanged, by either kernel and for every weight. *)
Theorem zero_error_adjust r g b a mul :
  is_rgba8 (color_RGBA r g b a) = true →
  stored (applyWeightsFloydSteinber (color_RGBA r g b a) zero_err mul) =
    color_RGBA (257 * r * (257 * a) / 65535 / 256) (257 * g * (257 * a) / 65535 / 256)
               (257 * b * (257 * a) / 65535 / 256) a ∧
  stored (applyWeightsBurkes (color_RGBA r g b a) zero_err mul) =
    stored (applyWeightsFloydSteinber (color_RGBA r g b a) zero_err mul) ∧
  (a = 255 →
   stored (applyWeightsFloydSteinber (color_RGBA r g b a) zero_err mul) = color_RGBA r g b a).
Proof.
  intros H8. destruct (applyWeights_zero r g b a mul H8) as [EF EB].
  rewrite EF, EB. split; [apply adjust_zero_pixel, H8|]. split; [reflexivity|].
  intros ->. apply adjust_zero_opaque, H8.
Qed.

Lemma zero_error_adjust_witness :
  is_rgba8 (color_RGBA 128 128 128 128) = true ∧
  stored (applyWeightsFloydSteinber (color_RGBA 128 128 128 128) zero_err 7) =
    color_RGBA (257 * 128 * (257 * 128) / 65535 / 256) (257 * 128 * (257 * 128) / 65535 / 256)
               (257 * 128 * (257 * 128) / 65535 / 256) 128 ∧
  stored (applyWeightsBurkes (color_RGBA 128 128 128 128) zero_err 7) =
    stored (applyWeightsFloydSteinber (color_RGBA 128 128 128 128) zero_err 7) ∧
  (128 = 255 →
   stored (applyWeightsFloydSteinber (color_RGBA 128 128 128 128) zero_err 7) =
     color_RGBA 128 128 128 128).
Proof.
  split; [reflexivity|]. exact (zero_error_adjust 128 128 128 128 7 eq_refl).
Defined.

Lemma opaque_pixel_adjust c mul :
  is_rgba8 c = true → is_opaque c = true →
  stored (applyWeightsFloydSteinber c zero_err mul) = c ∧
  stored (applyWeightsBurkes c zero_err mul) = c.
Proof.
  destruct c as [r g b a| | |]; try discriminate. intros H8 Ho.
  cbn [is_opaque] in Ho. apply Z.eqb_eq in Ho. subst a.
  destruct (applyWeights_zero r g b 255 mul H8) as [-> ->].
  split; apply adjust_zero_opaque, H8.
Qed.

Lemma diffuse_neutral app tbl :
  distinct_offsets tbl = true →
  (∀ c mul, is_rgba8 c = true → is_opaque c = true → stored (app c zero_err mul) = c) →
  neutral_kernel (diffuse app tbl).
Proof.
  intros Hd Happ x y p h b Hb Hwf Hop.
  destruct (diffuse_diffused app tbl h p b x y zero_err Hd Hb Hwf)
    as (b' & E & Hwf' & Hr' & Hat).
  exists b'. repeat split; try assumption. intros x' y'. rewrite Hat.
  destruct (Point_In (mkPoint x' y') (Rect b)) eqn:Hin; [|reflexivity].
  destruct (weight_at tbl (x' - x) (y' - y)) as [mul|]; [|reflexivity].
  destruct (RGBAAt_wf b x' y' Hwf) as (c & Hc & H8). rewrite Hc. cbn.
  rewrite (Happ c mul H8 (Hop x' y' c Hin Hc)). reflexivity.
Qed.

Lemma FloydSteinberg_neutral : neutral_kernel FloydSteinberg.
Proof.
  intros x y p h b Hb Hwf Hop. rewrite FloydSteinberg_diffuse.
  apply (diffuse_neutral applyWeightsFloydSteinber FloydSteinberg_table); auto.
  intros c mul H8 Ho. apply (opaque_pixel_adjust c mul H8 Ho).
Qed.

Lemma Burkes_neutral : neutral_kernel Burkes.
Proof.
  intros x y p h b Hb Hwf Hop. rewrite Burkes_diffuse.
  apply (diffuse_neutral applyWeightsBurkes Burkes_table); auto.
  intros c mul H8 Ho. apply (opaque_pixel_adjust c mul H8 Ho).
Qed.

(** X7.  Handed a zero error, both kernels leave an opaque buffer as it
    reads, at every position. *)
Theorem kernels_neutral_on_opaque :
  neutral_kernel FloydSteinberg ∧ neutral_kernel Burkes.
Proof. split; [exact FloydSteinberg_neutral|exact Burkes_neutral]. Qed.

(** ** The monochrome strategy, continued *)

Lemma BlackAndWhitePalette_sum c :
  BlackAndWhitePalette c = color_Gray16 (if rgbSum c <? 98301 then 0 else 65535).
Proof.
  pose proof (BlackAndWhitePalette_mean c) as H. unfold rgbSum.
  destruct (RGBA c) as [[[r g] b] a]. rewrite H. change (65535 / 2) with 32767.
  pose proof (Z.div_mod (r + g + b) 3 ltac:(lia)).
  pose proof (Z.mod_pos_bound (r + g + b) 3 ltac:(lia)).
  destruct (Z.ltb_spec ((r + g + b) / 3) 32767); destruct (Z.ltb_spec (r + g + b) 98301);
    try reflexivity; lia.
Qed.

(** X8.  The monochrome strategy is monotone in the sum of the colour
    channels and ignores alpha: a colour whose channels sum to at least
    those of a colour mapped to white is mapped to white. *)
Theorem BlackAndWhitePalette_monotone c c' :
  rgbSum c ≤ rgbSum c' →
  BlackAndWhitePalette c = color_Gray16 65535 →
  BlackAndWhitePalette c' = color_Gray16 65535.
Proof.
  intros Hle. rewrite !BlackAndWhitePalette_sum.
  destruct (Z.ltb_spec (rgbSum c) 98301); [discriminate|].
  destruct (Z.ltb_spec (rgbSum c') 98301); [lia|reflexivity].
Qed.

Lemma BlackAndWhitePalette_monotone_witness :
  rgbSum (color_RGBA 128 128 128 255) ≤ rgbSum (color_RGBA64 40000 30000 30000 0) ∧
  BlackAndWhitePalette (color_RGBA 128 128 128 255) = color_Gray16 65535 ∧
  BlackAndWhitePalette (color_RGBA64 40000 30000 30000 0) = color_Gray16 65535.
Proof.
  assert (H1 : rgbSum (color_RGBA 128 128 128 255) ≤ rgbSum (color_RGBA64 40000 30000 30000 0))
    by (vm_compute; discriminate).
  assert (H2 : BlackAndWhitePalette (color_RGBA 128 128 128 255) = color_Gray16 65535)
    by reflexivity.
  split; [exact H1|]. split; [exact H2|].
  exact (BlackAndWhitePalette_monotone _ _ H1 H2).
Defined.

(** X9.  The error vector the engine computes for a buffer pixel under
    the monochrome strategy: every component lies in [[-65535, 65535]];
    the colour components are the pixel's channels when it is mapped to
    black and the channels minus 65535 when it is mapped to white; the
    alpha component is never positive and is zero exactly for an opaque
    pixel. *)
Theorem BlackAndWhitePalette_error r g b a :
  is_rgba8 (color_RGBA r g b a) = true →
  let c := color_RGBA r g b a in
  let err := colorDiff c (BlackAndWhitePalette c) in
  (- 65535 ≤ R err ≤ 65535 ∧ - 65535 ≤ G err ≤ 65535 ∧
   - 65535 ≤ B err ≤ 65535 ∧ - 65535 ≤ A err ≤ 0) ∧
  (BlackAndWhitePalette c = color_Gray16 0 →
   err = mkRGBAVec (257 * r) (257 * g) (257 * b) (257 * a - 65535)) ∧
  (BlackAndWhitePalette c = color_Gray16 65535 →
   err = mkRGBAVec (257 * r - 65535) (257 * g - 65535) (257 * b - 65535) (257 * a - 65535)) ∧
  (A err = 0 ↔ a = 255).
Proof.
  intros H8. cbn zeta.
  destruct (RGBA_rgba8 r g b a H8) as (E & Hr & Hg & Hb & Ha).
  pose proof (colorDiff_channels (color_RGBA r g b a) (color_Gray16 0)) as E0.
  pose proof (colorDiff_channels (color_RGBA r g b a) (color_Gray16 65535)) as E1.
  rewrite E in E0, E1. cbn [RGBA] in E0, E1.
  change (uint32 0) with 0 in E0. change (uint32 65535) with 65535 in E1.
  destruct (BlackAndWhitePalette_cases (color_RGBA r g b a)) as [-> | ->].
  - rewrite E0. cbn [R G B A]. rewrite !Z.sub_0_r.
    repeat split; try lia; try discriminate; intros _; reflexivity.
  - rewrite E1. cbn [R G B A].
    repeat split; try lia; try discriminate; intros _; reflexivity.
Qed.

Lemma BlackAndWhitePalette_error_witness :
  is_rgba8 (color_RGBA 200 100 50 128) = true ∧
  let c := color_RGBA 200 100 50 128 in
  let err := colorDiff c (BlackAndWhitePalette c) in
  (- 65535 ≤ R err ≤ 65535 ∧ - 65535 ≤ G err ≤ 65535 ∧
   - 65535 ≤ B err ≤ 65535 ∧ - 65535 ≤ A err ≤ 0) ∧
  (BlackAndWhitePalette c = color_Gray16 0 →
   err = mkRGBAVec (257 * 200) (257 * 100) (257 * 50) (257 * 128 - 65535)) ∧
  (BlackAndWhitePalette c = color_Gray16 65535 →
   err = mkRGBAVec (257 * 200 - 65535) (257 * 100 - 65535) (257 * 50 - 65535)
           (257 * 128 - 65535)) ∧
  (A err = 0 ↔ 128 = 255).
Proof.
  split; [reflexivity|]. exact (BlackAndWhitePalette_error 200 100 50 128 eq_refl).
Defined.

(** ** Fixed palettes, continued *)

Lemma sqDiffSum_bound c v : sqDiffSum c v < 2 ^ 32 - 1.
Proof.
  pose proof (sqDiffSum_sum c v) as H.
  destruct (RGBA c) as [[[cr cg] cb] ca], (RGBA v) as [[[vr vg] vb] va]. rewrite H.
  pose proof (sqDiff_range cr vr). pose proof (sqDiff_range cg vg).
  pose proof (sqDiff_range cb vb). pose proof (sqDiff_range ca va). lia.
Qed.

(** The loop of [Index] either keeps [ret], when no entry is nearer than
    [bestSum], or returns the first of the nearest entries. *)
Lemma Index_from_nearest c p : ∀ i ret bestSum,
  0 < bestSum →
  (Index_from c p i ret bestSum = ret ∧
   ∀ k v, p !! k = Some v → bestSum ≤ sqDiffSum c v) ∨
  (∃ k q, Index_from c p i ret bestSum = i + Z.of_nat k ∧ p !! k = Some q ∧
          sqDiffSum c q < bestSum ∧
          (∀ k' v, p !! k' = Some v → sqDiffSum c q ≤ sqDiffSum c v) ∧
          (∀ k' v, (k' < k)%nat → p !! k' = Some v → sqDiffSum c q < sqDiffSum c v)).
Proof.
  induction p as [|v0 p IH]; intros i ret bestSum Hbest; cbn [Index_from].
  - left. split; [reflexivity|]. intros k v Hk. discriminate.
  - pose proof (sqDiffSum_nonneg c v0) as H0.
    destruct (Z.ltb_spec (sqDiffSum c v0) bestSum) as [Hlt|Hge].
    + destruct (Z.eqb_spec (sqDiffSum c v0) 0) as [Hz|Hnz].
      * right. exists 0%nat, v0. rewrite Z.add_0_r.
        split; [reflexivity|]. split; [reflexivity|]. split; [lia|].
        split; [|intros k' v Hk'; lia].
        intros k' v Hk'. pose proof (sqDiffSum_nonneg c v). lia.
      * destruct (IH (i + 1) i (sqDiffSum c v0) ltac:(lia))
          as [[-> Hall]|(k & q & -> & Hq & Hlt' & Hmin & Hfirst)]; right.
        -- exists 0%nat, v0. rewrite Z.add_0_r.
           split; [reflexivity|]. split; [reflexivity|]. split; [lia|].
           split; [|intros k' v Hk'; lia].
           intros [|k'] v Hk'; cbn in Hk'; [injection Hk' as <-; lia|eauto].
        -- exists (S k), q. split; [lia|]. split; [exact Hq|]. split; [lia|]. split.
           ++ intros [|k'] v Hk'; cbn in Hk'; [injection Hk' as <-; lia|eauto].
           ++ intros [|k'] v Hlt'' Hk'; cbn in Hk'; [injection Hk' as <-; lia|].
              apply (Hfirst k' v); [lia|exact Hk'].
    + destruct (IH (i + 1) ret bestSum Hbest)
        as [[-> Hall]|(k & q & -> & Hq & Hlt' & Hmin & Hfirst)].
      * left. split; [reflexivity|].
        intros [|k'] v Hk'; cbn in Hk'; [injection Hk' as <-; lia|eauto].
      * right. exists (S k), q. split; [lia|]. split; [exact Hq|]. split; [lia|]. split.
        -- intros [|k'] v Hk'; cbn in Hk'; [injection Hk' as <-; lia|eauto].
        -- intros [|k'] v Hlt'' Hk'; cbn in Hk'; [injection Hk' as <-; lia|].
           apply (Hfirst k' v); [lia|exact Hk'].
Qed.

Lemma Palette_Convert_nearest p c :
  p ≠ [] →
  ∃ k q, Palette_Convert p c = Some q ∧ p !! k = Some q ∧
         (∀ k' v, p !! k' = Some v → sqDiffSum c q ≤ sqDiffSum c v) ∧
         (∀ k' v, (k' < k)%nat → p !! k' = Some v → sqDiffSum c q < sqDiffSum c v).
Proof.
  intros Hne. unfold Palette_Convert, Palette_Index.
  destruct p as [|v0 p]; [congruence|].
  destruct (Z.eqb_spec (Z.of_nat (length (v0 :: p))) 0) as [Hl|_]; [cbn in Hl; lia|].
  destruct (Index_from_nearest c (v0 :: p) 0 0 (2 ^ 32 - 1) ltac:(lia))
    as [[_ Hall]|(k & q & -> & Hq & _ & Hmin & Hfirst)].
  - pose proof (Hall 0%nat v0 eq_refl). pose proof (sqDiffSum_bound c v0). lia.
  - exists k, q. rewrite Z.add_0_l, Nat2Z.id. auto.
Qed.

(** X10.  Over a table that is not empty, the two fixed-palette
    strategies return the entry of the table nearest to the colour (least
    sum of shifted squared channel differences), the first such entry in
    table order; over an empty table they return the nil value. *)
Theorem fixed_palette_nearest (WebSafe Plan9 : Palette) c :
  WebSafe ≠ [] → Plan9 ≠ [] →
  (∃ k q, WebSafePalette WebSafe c = Some q ∧ WebSafe !! k = Some q ∧
          (∀ k' v, WebSafe !! k' = Some v → sqDiffSum c q ≤ sqDiffSum c v) ∧
          (∀ k' v, (k' < k)%nat → WebSafe !! k' = Some v → sqDiffSum c q < sqDiffSum c v)) ∧
  (∃ k q, Plan9Palette Plan9 c = Some q ∧ Plan9 !! k = Some q ∧
          (∀ k' v, Plan9 !! k' = Some v → sqDiffSum c q ≤ sqDiffSum c v) ∧
          (∀ k' v, (k' < k)%nat → Plan9 !! k' = Some v → sqDiffSum c q < sqDiffSum c v)) ∧
  WebSafePalette [] c = None ∧ Plan9Palette [] c = None.
Proof.
  intros Hw Hp. split; [apply Palette_Convert_nearest, Hw|].
  split; [apply Palette_Convert_nearest, Hp|]. split; reflexivity.
Qed.

Lemma fixed_palette_nearest_witness :
  WebSafe_table ≠ [] ∧ gray_ramp ≠ [] ∧
  (∃ k q, WebSafePalette WebSafe_table (color_Gray16 30000) = Some q ∧
          WebSafe_table !! k = Some q ∧
          (∀ k' v, WebSafe_table !! k' = Some v →
                   sqDiffSum (color_Gray16 30000) q ≤ sqDiffSum (color_Gray16 30000) v) ∧
          (∀ k' v, (k' < k)%nat → WebSafe_table !! k' = Some v →
                   sqDiffSum (color_Gray16 30000) q < sqDiffSum (color_Gray16 30000) v)) ∧
  (∃ k q, Plan9Palette gray_ramp (color_Gray16 30000) = Some q ∧
          gray_ramp !! k = Some q ∧
          (∀ k' v, gray_ramp !! k' = Some v →
                   sqDiffSum (color_Gray16 30000) q ≤ sqDiffSum (color_Gray16 30000) v) ∧
          (∀ k' v, (k' < k)%nat → gray_ramp !! k' = Some v →
                   sqDiffSum (color_Gray16 30000) q < sqDiffSum (color_Gray16 30000) v)) ∧
  WebSafePalette [] (color_Gray16 30000) = None ∧
  Plan9Palette [] (color_Gray16 30000) = None.
Proof.
  assert (H1 : WebSafe_table ≠ []) by (vm_compute; discriminate).
  assert (H2 : gray_ramp ≠ []) by (vm_compute; discriminate).
  split; [exact H1|]. split; [exact H2|].
  exact (fixed_palette_nearest WebSafe_table gray_ramp (color_Gray16 30000) H1 H2).
Defined.

(** ** The engine, continued *)

Section Raster.
Variables (h0 : Heap) (p : loc).
Hypothesis Hp : (p < length h0)%nat.
Variables (rect : Rectangle) (body : Z → Z → M unit) (I : Z → Z → image_RGBA → Prop).
Hypothesis Hw : 0 ≤ Dx rect.
Hypothesis Hh : 0 ≤ Dy rect.
Hypothesis Hstep : ∀ x y, Point_In (mkPoint x y) rect = true →
  triple h0 p (I x y) (body x y) (λ _, I (x + 1) y).
Hypothesis Hrow : ∀ y b, Y (Min rect) ≤ y < Y (Max rect) →
  I (X (Max rect)) y b → I (X (Min rect)) (y + 1) b.

(** The two nested loops over a rectangle, rows outside, with an
    invariant indexed by the position. *)
Lemma triple_raster :
  triple h0 p (I (X (Min rect)) (Y (Min rect)))
    (for_range (Y (Min rect)) (Y (Max rect)) (λ y,
       for_range (X (Min rect)) (X (Max rect)) (λ x, body x y)))
    (λ _, I (X (Min rect)) (Y (Max rect))).
Proof.
  apply (triple_for_range h0 p Hp _ (λ y, I (X (Min rect)) y)); [unfold Dy in Hh; lia|].
  intros y Hy.
  eapply triple_weaken;
    [| |apply (triple_for_range h0 p Hp (λ x, body x y) (λ x, I x y)
                 (X (Min rect)) (X (Max rect)))].
  - auto.
  - cbn beta. intros _ b Hb. apply Hrow; assumption.
  - unfold Dx in Hw. lia.
  - intros x Hx. apply Hstep. apply Point_In_spec. lia.
Qed.
End Raster.

(** Reading the source gives the same colour before the call and while
    the new buffer is being written. *)
Lemma Image_At_frame (h : Heap) img b0 xs ys :
  img_ok h img →
  ∃ c, Image_At img xs ys h = Some (c, h) ∧
       ∀ b, Image_At img xs ys (<[length h := b]> (h ++ [b0])) =
            Some (c, <[length h := b]> (h ++ [b0])).
Proof.
  intros Himg. destruct img as [s|r f]; cbn [Image_At img_ok] in *.
  - destruct Himg as (bs & Hs & _ & Hread).
    assert (s < length h)%nat by (eapply lookup_lt_Some; eauto).
    destruct (RGBAAt_readable bs xs ys Hread) as [c Hc]. exists c.
    unfold RGBA_At. rewrite !bind_run. unfold deref. rewrite Hs. unfold lift. rewrite Hc.
    split; [reflexivity|]. intros b. rewrite bind_run.
    rewrite list_lookup_insert_ne by lia. rewrite lookup_app_l by lia.
    rewrite Hs, Hc. reflexivity.
  - exists (f xs ys). split; [reflexivity|]. intros b. reflexivity.
Qed.

(** On a channel within [[0, 0xffff]] the general path of [draw.Draw]
    keeps the high byte, as [Set] does. *)
Lemma draw_channel_small s : 0 ≤ s ≤ 65535 → draw_channel s = uint8 (Z.shiftr s 8).
Proof.
  intros Hs. unfold draw_channel. rewrite uint32_small by lia.
  rewrite Z.div_mul by lia. reflexivity.
Qed.

(** A [color.RGBA] whose [RGBA()] channel is within [[0, 0xffff]] holds a
    byte. *)
Lemma channel8_small v :
  Z.lor (uint32 v) (uint32 (Z.shiftl (uint32 v) 8)) ≤ 65535 →
  0 ≤ uint32 v < 256 ∧ uint8 v = uint32 v.
Proof.
  intros Hle. pose proof (uint32_range v) as Ha.
  pose proof (uint32_range (Z.shiftl (uint32 v) 8)) as Hb.
  set (a := uint32 v) in *. set (b := uint32 (Z.shiftl a 8)) in *.
  assert (Hlog : ∀ c, 0 ≤ c → Z.log2 c < 16 → c < 2 ^ 16).
  { intros c Hc Hl. destruct (Z.eq_dec c 0) as [->|]; [lia|].
    apply Z.log2_lt_pow2; lia. }
  assert (Hmax : Z.log2 (Z.lor a b) < 16).
  { destruct (Z.eq_dec (Z.lor a b) 0) as [->|]; [cbn; lia|].
    apply Z.log2_lt_pow2; [|lia].
    pose proof (Z.lor_nonneg a b). lia. }
  rewrite Z.log2_lor in Hmax by lia.
  assert (Ha16 : a < 2 ^ 16) by (apply Hlog; lia).
  assert (Hb16 : b < 2 ^ 16) by (apply Hlog; lia).
  assert (Eb : b = a * 256).
  { unfold b. rewrite Z.shiftl_mul_pow2 by lia. apply uint32_small. lia. }
  assert (a < 256) by lia.
  split; [lia|].
  unfold uint8. rewrite <- (Z.mod_mod_divide v (2 ^ 32) (2 ^ 8)) by (exists (2 ^ 24); reflexivity).
  fold (uint32 v). fold a. apply Z.mod_small. lia.
Qed.

(** For a source pixel that keeps the contract of [color.Color], what
    [draw.Draw] writes is what [Set] stores, whatever the path. *)
Lemma stored_drawn img c : channels16 c = true → stored (drawn img c) = stored c.
Proof.
  destruct img as [s|r f]; [reflexivity|]. unfold channels16, drawn.
  pose proof (RGBA_range c) as Hr. unfold is_uint32 in Hr.
  destruct c as [cr cg cb ca|cr cg cb ca|cr cg cb ca|cy].
  - cbn [RGBA]. rewrite !andb_true_iff, !Z.leb_le. intros [[[H1 H2] H3] H4].
    destruct (channel8_small cr H1) as [B1 E1]. destruct (channel8_small cg H2) as [B2 E2].
    destruct (channel8_small cb H3) as [B3 E3]. destruct (channel8_small ca H4) as [B4 E4].
    assert (Hq : ∀ v, 0 ≤ uint32 v < 256 → uint8 v = uint32 v →
              uint8 (draw_channel (Z.lor (uint32 v) (uint32 (Z.shiftl (uint32 v) 8)))) = uint8 v).
    { intros v Hv Ev. rewrite Ev.
      replace (Z.lor (uint32 v) (uint32 (Z.shiftl (uint32 v) 8)))
        with (Z.lor (uint32 (uint32 v)) (uint32 (Z.shiftl (uint32 (uint32 v)) 8)))
        by (rewrite (uint32_small (uint32 v)) by lia; reflexivity).
      rewrite channel8 by lia. rewrite draw_channel_small by lia.
      rewrite Z.shiftr_div_pow2 by lia. change (2 ^ 8) with 256.
      rewrite high_byte by lia. rewrite !(uint8_small (uint32 v)) by lia. reflexivity. }
    unfold stored. cbn [RGBAModel_Convert].
    rewrite !Hq by assumption. reflexivity.
  - unfold stored. cbn [RGBAModel_Convert].
    destruct (RGBA (color_RGBA64 cr cg cb ca)) as [[[r' g'] b'] a'].
    rewrite !andb_true_iff, !Z.leb_le. intros [[[H1 H2] H3] H4].
    rewrite !draw_channel_small by lia. reflexivity.
  - unfold stored. cbn [RGBAModel_Convert].
    destruct (RGBA (color_NRGBA64 cr cg cb ca)) as [[[r' g'] b'] a'].
    rewrite !andb_true_iff, !Z.leb_le. intros [[[H1 H2] H3] H4].
    rewrite !draw_channel_small by lia. reflexivity.
  - unfold stored. cbn [RGBAModel_Convert].
    destruct (RGBA (color_Gray16 cy)) as [[[r' g'] b'] a'].
    rewrite !andb_true_iff, !Z.leb_le. intros [[[H1 H2] H3] H4].
    rewrite !draw_channel_small by lia. reflexivity.
Qed.

Section Copy.
Variables (img : Image) (h : Heap) (rect : Rectangle) (b0 : image_RGBA).
Hypothesis Himg : img_ok h img.
Hypothesis Hw : 0 ≤ Dx rect.
Hypothesis Hh : 0 ≤ Dy rect.

Lemma triple_draw_pixel x y :
  Point_In (mkPoint x y) rect = true →
  triple (h ++ [b0]) (length h) (draw_invariant h img rect x y)
    (c ← Image_At img (X (Min rect) + (x - X (Min rect))) (Y (Min rect) + (y - Y (Min rect)));
     RGBA_Set (length h) x y (drawn img c))
    (λ _, draw_invariant h img rect (x + 1) y).
Proof.
  intros Hin b1 (Hwf1 & Hr1 & Hdone1).
  replace (X (Min rect) + (x - X (Min rect))) with x by lia.
  replace (Y (Min rect) + (y - Y (Min rect))) with y by lia.
  destruct (Image_At_frame h img b0 x y Himg) as (c & Ec & Ec').
  destruct (RGBASet_wf b1 x y (drawn img c) Hwf1) as (b2 & E2 & Hwf2 & Hr2 & Hat2).
  exists tt, b2. rewrite bind_run, Ec'. cbn beta iota.
  rewrite (RGBA_Set_run (h ++ [b0]) (length h) (fresh_lt h b0)), E2.
  split; [reflexivity|]. split; [assumption|]. split; [congruence|].
  intros x' y' c' Hin' Hbefore Hc'. rewrite Hat2, Hr1, Hin. cbn [andb].
  destruct (Z.eqb_spec x' x) as [->|]; [destruct (Z.eqb_spec y' y) as [->|]|]; cbn [andb].
  - congruence.
  - apply Hdone1; auto. lia.
  - apply Hdone1; auto. lia.
Qed.

(** [draw.Draw] copies the source: afterwards every inside pixel holds
    what [draw.Draw] writes for the source pixel at the same place. *)
Lemma triple_draw_copy :
  triple (h ++ [b0]) (length h) (λ b, wf_buf b = true ∧ Rect b = rect)
    (draw_Draw_Src (length h) rect img (Min rect))
    (λ _, copy_of h img rect).
Proof.
  unfold draw_Draw_Src.
  eapply triple_weaken;
    [| |apply (triple_raster (h ++ [b0]) (length h) (fresh_lt h b0) rect
                 (λ x y, c ← Image_At img (X (Min rect) + (x - X (Min rect)))
                                          (Y (Min rect) + (y - Y (Min rect)));
                         RGBA_Set (length h) x y (drawn img c))
                 (draw_invariant h img rect) Hw Hh)].
  - cbn beta. intros b [Hwf Hr]. split; [assumption|]. split; [assumption|].
    intros x' y' c Hin' Hbefore. apply Point_In_spec in Hin'. lia.
  - cbn beta. intros _ b (Hwf & Hr & Hdone). split; [assumption|]. split; [assumption|].
    intros x y c Hin Hc. apply (Hdone x y c Hin); [|exact Hc].
    apply Point_In_spec in Hin. lia.
  - intros x y Hin. apply triple_draw_pixel, Hin.
  - intros y b Hy (Hwf & Hr & Hdone). split; [assumption|]. split; [assumption|].
    intros x' y' c Hin' Hbefore. apply Hdone; auto.
    apply Point_In_spec in Hin'. lia.
Qed.
End Copy.

(** [Dither] from its two phases: the copy and the pass. *)
Lemma Dither_phases img algo find (h : Heap) rect (P Q : image_RGBA → Prop) :
  Image_Bounds img h = Some (rect, h) → fits_int rect = true →
  triple (h ++ [zero_buf rect]) (length h) (eq (zero_buf rect))
    (draw_Draw_Src (length h) rect img (Min rect)) (λ _, P) →
  triple (h ++ [zero_buf rect]) (length h) P
    (for_range (Y (Min rect)) (Y (Max rect)) (λ y,
       for_range (X (Min rect)) (X (Max rect)) (λ x,
         oldPixel ← RGBA_At (length h) x y;
         let newPixel := find oldPixel in
         RGBA_Set (length h) x y newPixel;;
         let diff := colorDiff oldPixel newPixel in
         algo x y (length h) diff)))
    (λ _, Q) →
  ∃ b', Dither img algo find h = Some (length h, h ++ [b']) ∧ Q b'.
Proof.
  intros Hb Hfit Hdraw Hpass.
  assert (Htr : triple (h ++ [zero_buf rect]) (length h) (eq (zero_buf rect))
            (draw_Draw_Src (length h) rect img (Min rect);;
             for_range (Y (Min rect)) (Y (Max rect)) (λ y,
               for_range (X (Min rect)) (X (Max rect)) (λ x,
                 oldPixel ← RGBA_At (length h) x y;
                 let newPixel := find oldPixel in
                 RGBA_Set (length h) x y newPixel;;
                 let diff := colorDiff oldPixel newPixel in
                 algo x y (length h) diff));;
             mret (length h))
            (λ q b, q = length h ∧ Q b)).
  { eapply triple_bind; [exact Hdraw|]. intros [].
    eapply triple_bind; [exact Hpass|]. intros []. apply triple_ret. auto. }
  destruct (Htr (zero_buf rect) eq_refl) as (q & b' & E & -> & HQ).
  exists b'. split; [|exact HQ].
  rewrite (list_insert_id (h ++ [zero_buf rect])) in E
    by (apply list_lookup_middle; reflexivity).
  rewrite insert_snoc in E.
  unfold Dither. rewrite bind_run, Hb. cbn beta iota.
  rewrite bind_run, (NewRGBA_run rect h Hfit). cbn beta iota. exact E.
Qed.

(** X11.  Whatever the strategy, under a forward kernel and on a source
    whose bounds [image.NewRGBA] accepts ([img_ok]), [Dither] returns and
    every pixel of the image it returns is what [Set] stores for an
    answer of the strategy. *)
Theorem Dither_strategy_range img algo find (h : Heap) :
  img_ok h img → forward_kernel algo →
  ∃ rect q h',
    Image_Bounds img h = Some (rect, h) ∧
    Dither img algo find h = Some (q, h') ∧
    ∀ x y, Point_In (mkPoint x y) rect = true →
           ∃ c, RGBA_At q x y h' = Some (stored (find c), h').
Proof.
  intros Himg Halgo.
  destruct (Dither_run img algo find true h Himg Halgo)
    as (rect & b' & Hb & Hrun & Hwf & Hr & Hdone).
  exists rect, (length h), (h ++ [b']). split; [exact Hb|]. split; [exact Hrun|].
  intros x y Hin. destruct (Hdone eq_refl x y Hin) as [c Hc].
  exists c. rewrite RGBA_At_fresh, Hc. reflexivity.
Qed.

Lemma Dither_strategy_range_witness :
  img_ok [] grey_3x2 ∧ forward_kernel Burkes ∧
  ∃ rect q h',
    Image_Bounds grey_3x2 [] = Some (rect, []) ∧
    Dither grey_3x2 Burkes (λ c, color_Gray16 12345) [] = Some (q, h') ∧
    ∀ x y, Point_In (mkPoint x y) rect = true →
           ∃ c, RGBA_At q x y h' = Some (stored ((λ _ : Color, color_Gray16 12345) c), h').
Proof.
  assert (H : img_ok [] grey_3x2) by reflexivity.
  split; [exact H|]. split; [exact Burkes_forward|].
  exact (Dither_strategy_range grey_3x2 Burkes (λ c, color_Gray16 12345) [] H Burkes_forward).
Defined.

Section Reproduce.
Variables (img : Image) (algo : Algo) (find : ColorFinder).
Variables (h : Heap) (rect : Rectangle) (b0 : image_RGBA).
Hypothesis Himg : img_ok h img.
Hypothesis Halgo : neutral_kernel algo.
Hypothesis Hw : 0 ≤ Dx rect.
Hypothesis Hh : 0 ≤ Dy rect.
Hypothesis Hrep : ∀ x y c0, Point_In (mkPoint x y) rect = true →
  Image_At img x y h = Some (c0, h) → reproduced find (stored (drawn img c0)).

Lemma copy_opaque b : copy_of h img rect b → opaque_buf b.
Proof.
  intros (Hwf & Hr & Hcp) x y c Hin Hc. rewrite Hr in Hin.
  destruct (Image_At_frame h img b0 x y Himg) as (c0 & Ec & _).
  rewrite (Hcp x y c0 Hin Ec) in Hc. injection Hc as <-.
  apply (Hrep x y c0 Hin Ec).
Qed.

Lemma triple_neutral x y b1 :
  wf_buf b1 = true → opaque_buf b1 →
  triple (h ++ [b0]) (length h) (eq b1) (algo x y (length h) zero_err)
    (λ _ b2, wf_buf b2 = true ∧ Rect b2 = Rect b1 ∧
             ∀ x' y', RGBAAt b2 x' y' = RGBAAt b1 x' y').
Proof.
  intros Hwf Hop b <-.
  destruct (Halgo x y (length h) (<[length h := b1]> (h ++ [b0])) b1) as (b2 & E & H2);
    [apply list_lookup_insert_eq, fresh_lt|exact Hwf|exact Hop|].
  rewrite list_insert_insert_eq in E. exists tt, b2. auto.
Qed.

(** Visiting a pixel of a copy the strategy reproduces leaves the copy
    as it reads. *)
Lemma triple_reproduce_pixel x y :
  Point_In (mkPoint x y) rect = true →
  triple (h ++ [b0]) (length h) (copy_of h img rect)
    (oldPixel ← RGBA_At (length h) x y;
     let newPixel := find oldPixel in
     RGBA_Set (length h) x y newPixel;;
     let diff := colorDiff oldPixel newPixel in
     algo x y (length h) diff)
    (λ _, copy_of h img rect).
Proof.
  intros Hin. apply triple_pointwise. intros b1 Hcopy.
  pose proof (copy_opaque b1 Hcopy) as Hop1. destruct Hcopy as (Hwf1 & Hr1 & Hcp1).
  destruct (Image_At_frame h img b0 x y Himg) as (c0 & Ec & _).
  pose proof (Hcp1 x y c0 Hin Ec) as Hat1.
  destruct (Hrep x y c0 Hin Ec) as (Ho & Hst & Hch).
  eapply triple_bind;
    [apply (triple_At (h ++ [b0]) (length h) (fresh_lt h b0) x y (eq b1)); congruence|].
  intros oldPixel. cbn beta zeta.
  apply triple_pointwise. intros ? [<- Hold].
  rewrite Hat1 in Hold. injection Hold as <-.
  eapply triple_bind;
    [apply (triple_Set (h ++ [b0]) (length h) (fresh_lt h b0) x y _ b1 Hwf1)|]. intros [].
  apply triple_pointwise. intros b2 (Hwf2 & Hr2 & Hat2).
  rewrite (colorDiff_same_channels _ _ Hch).
  assert (Hsame : ∀ x' y', RGBAAt b2 x' y' = RGBAAt b1 x' y').
  { intros x' y'. rewrite Hat2, Hr1, Hin. cbn [andb].
    destruct (Z.eqb_spec x' x) as [->|]; [destruct (Z.eqb_spec y' y) as [->|]|];
      cbn [andb]; try reflexivity.
    rewrite Hst, Hat1. reflexivity. }
  assert (Hop2 : opaque_buf b2).
  { intros x' y' c Hin' Hc. rewrite Hr2 in Hin'. rewrite Hsame in Hc. eauto. }
  eapply triple_weaken; [| |apply (triple_neutral x y b2 Hwf2 Hop2)]; [auto|].
  cbn beta. intros _ b3 (Hwf3 & Hr3 & Hat3). split; [assumption|]. split; [congruence|].
  intros x' y' c Hin' Hc. rewrite Hat3, Hsame. apply Hcp1; assumption.
Qed.

Lemma triple_reproduce_pass :
  triple (h ++ [b0]) (length h) (copy_of h img rect)
    (for_range (Y (Min rect)) (Y (Max rect)) (λ y,
       for_range (X (Min rect)) (X (Max rect)) (λ x,
         oldPixel ← RGBA_At (length h) x y;
         let newPixel := find oldPixel in
         RGBA_Set (length h) x y newPixel;;
         let diff := colorDiff oldPixel newPixel in
         algo x y (length h) diff)))
    (λ _, copy_of h img rect).
Proof.
  apply (triple_raster (h ++ [b0]) (length h) (fresh_lt h b0) rect
           (λ x y, oldPixel ← RGBA_At (length h) x y;
                   let newPixel := find oldPixel in
                   RGBA_Set (length h) x y newPixel;;
                   let diff := colorDiff oldPixel newPixel in
                   algo x y (length h) diff)
           (λ _ _, copy_of h img rect) Hw Hh).
  - intros x y Hin. apply triple_reproduce_pixel, Hin.
  - intros y b _ Hb. exact Hb.
Qed.
End Reproduce.

(** When the strategy reproduces every pixel of the copy of the source,
    a neutral kernel makes [Dither] return that copy. *)
Lemma Dither_copy_run img algo find (h : Heap) :
  img_ok h img → neutral_kernel algo →
  (∀ rect x y c0, Image_Bounds img h = Some (rect, h) →
                  Point_In (mkPoint x y) rect = true →
                  Image_At img x y h = Some (c0, h) →
                  channels16 c0 = true ∧ reproduced find (stored c0)) →
  ∃ rect q h',
    Image_Bounds img h = Some (rect, h) ∧
    Dither img algo find h = Some (q, h') ∧
    (∀ s b, h !! s = Some b → h' !! s = Some b) ∧
    ∀ x y c0, Point_In (mkPoint x y) rect = true →
              Image_At img x y h = Some (c0, h) →
              RGBA_At q x y h' = Some (stored c0, h').
Proof.
  intros Himg Halgo Hrep.
  destruct (Image_Bounds_ok h img Himg) as (rect & Hb & Hfit).
  destruct (proj1 (fits_int_spec rect) Hfit) as (Hw & Hh & _).
  destruct (Dither_phases img algo find h rect (copy_of h img rect) (copy_of h img rect)
              Hb Hfit) as (b' & Hrun & Hwf & Hr & Hcp).
  - eapply triple_weaken; [| |apply triple_draw_copy; assumption].
    + intros b <-. split; [apply zero_buf_wf; assumption|reflexivity].
    + cbn beta. intros _ b Hcopy. exact Hcopy.
  - apply triple_reproduce_pass; try assumption. intros x y c0 Hin Hc.
    destruct (Hrep rect x y c0 Hb Hin Hc) as [Hch Hre].
    rewrite (stored_drawn img c0 Hch). exact Hre.
  - exists rect, (length h), (h ++ [b']). split; [exact Hb|]. split; [exact Hrun|].
    split; [intros s b Hs; apply lookup_app_l_Some, Hs|].
    intros x y c0 Hin Hc. destruct (Hrep rect x y c0 Hb Hin Hc) as [Hch _].
    rewrite RGBA_At_fresh, (Hcp x y c0 Hin Hc), (stored_drawn img c0 Hch). reflexivity.
Qed.

(** X12.  When every pixel of the source keeps the contract of
    [color.Color] (channels within [[0, 0xffff]]) and, as stored in the
    new buffer, is opaque and is reproduced by the strategy, [Dither] with
    a kernel that is neutral on zero errors (as both kernels of the
    package are) returns the plain copy of the source: no error is
    produced and no pixel moves. *)
Theorem Dither_reproduces img algo find (h : Heap) :
  img_ok h img → neutral_kernel algo →
  (∀ rect x y c0, Image_Bounds img h = Some (rect, h) →
                  Point_In (mkPoint x y) rect = true →
                  Image_At img x y h = Some (c0, h) →
                  channels16 c0 = true ∧ reproduced find (stored c0)) →
  ∃ rect q h',
    Image_Bounds img h = Some (rect, h) ∧
    Dither img algo find h = Some (q, h') ∧
    (∀ s b, h !! s = Some b → h' !! s = Some b) ∧
    ∀ x y c0, Point_In (mkPoint x y) rect = true →
              Image_At img x y h = Some (c0, h) →
              RGBA_At q x y h' = Some (stored c0, h').
Proof. intros Himg Halgo Hrep. apply Dither_copy_run; assumption. Qed.

Lemma grey_3x2_reproduced rect x y c0 :
  Image_Bounds grey_3x2 [] = Some (rect, []) →
  Point_In (mkPoint x y) rect = true →
  Image_At grey_3x2 x y [] = Some (c0, []) →
  channels16 c0 = true ∧ reproduced (λ c, c) (stored c0).
Proof. intros _ _ Hc. injection Hc as <-. repeat split. Qed.

Lemma Dither_reproduces_witness :
  img_ok [] grey_3x2 ∧ neutral_kernel Burkes ∧
  (∀ rect x y c0, Image_Bounds grey_3x2 [] = Some (rect, []) →
                  Point_In (mkPoint x y) rect = true →
                  Image_At grey_3x2 x y [] = Some (c0, []) →
                  channels16 c0 = true ∧ reproduced (λ c, c) (stored c0)) ∧
  ∃ rect q h',
    Image_Bounds grey_3x2 [] = Some (rect, []) ∧
    Dither grey_3x2 Burkes (λ c, c) [] = Some (q, h') ∧
    (∀ s b, [] !! s = Some b → h' !! s = Some b) ∧
    ∀ x y c0, Point_In (mkPoint x y) rect = true →
              Image_At grey_3x2 x y [] = Some (c0, []) →
              RGBA_At q x y h' = Some (stored c0, h').
Proof.
  split; [exact grey_3x2_ok|]. split; [exact Burkes_neutral|].
  split; [exact grey_3x2_reproduced|].
  exact (Dither_reproduces grey_3x2 Burkes (λ c, c) []
           grey_3x2_ok Burkes_neutral grey_3x2_reproduced).
Defined.

Lemma reproduced_black_white c :
  c = pure_black ∨ c = pure_white → reproduced BlackAndWhitePalette c.
Proof. intros [-> | ->]; repeat split. Qed.

(** X13.  An image of pure black and pure white pixels (each keeping
    the contract of [color.Color], channels within [[0, 0xffff]]) is a
    fixed point of monochrome dithering: with either kernel of the
    package [Dither] returns every pixel as it is in the source. *)
Theorem Dither_black_white_fixed_point img algo (h : Heap) :
  img_ok h img → algo = FloydSteinberg ∨ algo = Burkes →
  (∀ rect x y c0, Image_Bounds img h = Some (rect, h) →
                  Point_In (mkPoint x y) rect = true →
                  Image_At img x y h = Some (c0, h) →
                  channels16 c0 = true ∧
                  (stored c0 = pure_black ∨ stored c0 = pure_white)) →
  ∃ rect q h',
    Image_Bounds img h = Some (rect, h) ∧
    Dither img algo BlackAndWhitePalette h = Some (q, h') ∧
    ∀ x y c0, Point_In (mkPoint x y) rect = true →
              Image_At img x y h = Some (c0, h) →
              RGBA_At q x y h' = Some (stored c0, h').
Proof.
  intros Himg Halgo Hbw.
  destruct (Dither_copy_run img algo BlackAndWhitePalette h Himg) as (rect & q & h' & Hb & Hrun & _ & Hcp).
  - destruct Halgo as [-> | ->]; [exact FloydSteinberg_neutral|exact Burkes_neutral].
  - intros rect x y c0 Hb Hin Hc. destruct (Hbw rect x y c0 Hb Hin Hc) as [Hch Hc0].
    split; [exact Hch|]. apply reproduced_black_white, Hc0.
  - exists rect, q, h'. auto.
Qed.

Lemma checker_2x2_black_white rect x y c0 :
  Image_Bounds checker_2x2 [] = Some (rect, []) →
  Point_In (mkPoint x y) rect = true →
  Image_At checker_2x2 x y [] = Some (c0, []) →
  channels16 c0 = true ∧ (stored c0 = pure_black ∨ stored c0 = pure_white).
Proof.
  intros _ _ Hc. injection Hc as <-. unfold checker.
  destruct ((x + y) mod 2 =? 0); (split; [reflexivity|]); [right|left]; reflexivity.
Qed.

Lemma Dither_black_white_fixed_point_witness :
  img_ok [] checker_2x2 ∧ (FloydSteinberg = FloydSteinberg ∨ FloydSteinberg = Burkes) ∧
  (∀ rect x y c0, Image_Bounds checker_2x2 [] = Some (rect, []) →
                  Point_In (mkPoint x y) rect = true →
                  Image_At checker_2x2 x y [] = Some (c0, []) →
                  channels16 c0 = true ∧
                  (stored c0 = pure_black ∨ stored c0 = pure_white)) ∧
  ∃ rect q h',
    Image_Bounds checker_2x2 [] = Some (rect, []) ∧
    Dither checker_2x2 FloydSteinberg BlackAndWhitePalette [] = Some (q, h') ∧
    ∀ x y c0, Point_In (mkPoint x y) rect = true →
              Image_At checker_2x2 x y [] = Some (c0, []) →
              RGBA_At q x y h' = Some (stored c0, h').
Proof.
  split; [exact checker_2x2_ok|]. split; [left; reflexivity|].
  split; [exact checker_2x2_black_white|].
  exact (Dither_black_white_fixed_point checker_2x2 FloydSteinberg []
           checker_2x2_ok (or_introl eq_refl) checker_2x2_black_white).
Defined.

Section FirstPixel.
Variables (img : Image) (algo : Algo) (find : ColorFinder).
Variables (h : Heap) (rect : Rectangle) (b0 : image_RGBA) (c0 : Color).
Hypothesis Himg : img_ok h img.
Hypothesis Halgo : forward_kernel algo.
Hypothesis Hw : 0 < Dx rect.
Hypothesis Hh : 0 < Dy rect.

Local Abbreviation first_inv :=
  (first_pixel_invariant rect (stored c0) (stored (find (stored c0)))).

Lemma triple_first_pixel x y :
  Point_In (mkPoint x y) rect = true →
  triple (h ++ [b0]) (length h) (first_inv x y)
    (oldPixel ← RGBA_At (length h) x y;
     let newPixel := find oldPixel in
     RGBA_Set (length h) x y newPixel;;
     let diff := colorDiff oldPixel newPixel in
     algo x y (length h) diff)
    (λ _, first_inv (x + 1) y).
Proof.
  intros Hin. pose proof Hin as Hxy. apply Point_In_spec in Hxy.
  apply triple_pointwise. intros b1 (Hwf1 & Hr1 & Hbefore1 & Hafter1).
  eapply triple_bind;
    [apply (triple_At (h ++ [b0]) (length h) (fresh_lt h b0) x y (eq b1)); congruence|].
  intros oldPixel. cbn beta zeta.
  apply triple_pointwise. intros ? [<- Hold].
  eapply triple_bind;
    [apply (triple_Set (h ++ [b0]) (length h) (fresh_lt h b0) x y _ b1 Hwf1)|]. intros [].
  apply triple_pointwise. intros b2 (Hwf2 & Hr2 & Hat2).
  eapply triple_weaken;
    [| |apply (triple_kernel algo true h b0 Halgo x y _ b2 Hwf2)]; [auto|].
  cbn beta. intros _ b3 (Hwf3 & Hr3 & Hat3). split; [assumption|]. split; [congruence|].
  split; [intros [_ Hx]; lia|]. intros _.
  rewrite (Hat3 eq_refl) by lia. rewrite Hat2, Hr1, Hin. cbn [andb].
  destruct (Z.eqb_spec (X (Min rect)) x) as [Ex|Ex];
    [destruct (Z.eqb_spec (Y (Min rect)) y) as [Ey|Ey]|]; cbn [andb].
  - rewrite Ex, Ey in Hbefore1. rewrite Hbefore1 in Hold by auto.
    injection Hold as <-. reflexivity.
  - apply Hafter1. lia.
  - apply Hafter1. lia.
Qed.

Lemma triple_first_pass :
  triple (h ++ [b0]) (length h) (first_inv (X (Min rect)) (Y (Min rect)))
    (for_range (Y (Min rect)) (Y (Max rect)) (λ y,
       for_range (X (Min rect)) (X (Max rect)) (λ x,
         oldPixel ← RGBA_At (length h) x y;
         let newPixel := find oldPixel in
         RGBA_Set (length h) x y newPixel;;
         let diff := colorDiff oldPixel newPixel in
         algo x y (length h) diff)))
    (λ _, first_inv (X (Min rect)) (Y (Max rect))).
Proof.
  apply (triple_raster (h ++ [b0]) (length h) (fresh_lt h b0) rect
           (λ x y, oldPixel ← RGBA_At (length h) x y;
                   let newPixel := find oldPixel in
                   RGBA_Set (length h) x y newPixel;;
                   let diff := colorDiff oldPixel newPixel in
                   algo x y (length h) diff)
           first_inv ltac:(lia) ltac:(lia)).
  - intros x y Hin. apply triple_first_pixel, Hin.
  - intros y b Hy (Hwf & Hr & Hbefore & Hafter). split; [assumption|]. split; [assumption|].
    split; [intros [Ey _]; lia|]. intros _. apply Hafter. unfold Dx in Hw. lia.
Qed.
End FirstPixel.

(** X14.  Under a forward kernel no error reaches the first pixel of an
    image that is not empty: when the top-left pixel of the source keeps
    the contract of [color.Color] (channels within [[0, 0xffff]]), the
    pixel [Dither] returns at the top-left corner is what [Set] stores for
    the strategy's answer to the stored top-left pixel of the source. *)
Theorem Dither_first_pixel img algo find (h : Heap) rect c0 :
  img_ok h img → forward_kernel algo →
  Image_Bounds img h = Some (rect, h) → 0 < Dx rect → 0 < Dy rect →
  Image_At img (X (Min rect)) (Y (Min rect)) h = Some (c0, h) →
  channels16 c0 = true →
  ∃ q h',
    Dither img algo find h = Some (q, h') ∧
    RGBA_At q (X (Min rect)) (Y (Min rect)) h' = Some (stored (find (stored c0)), h').
Proof.
  intros Himg Halgo Hb Hw Hh Hc0 Hch.
  assert (Hin0 : Point_In (mkPoint (X (Min rect)) (Y (Min rect))) rect = true)
    by (apply Point_In_spec; unfold Dx, Dy in *; lia).
  assert (Hfit : fits_int rect = true).
  { destruct (Image_Bounds_ok h img Himg) as (rect' & Hb' & Hfit). congruence. }
  destruct (Dither_phases img algo find h rect (copy_of h img rect)
              (first_pixel_invariant rect (stored c0) (stored (find (stored c0)))
                 (X (Min rect)) (Y (Max rect)))
              Hb Hfit) as (b' & Hrun & Hwf & Hr & _ & Hafter).
  - eapply triple_weaken; [| |apply triple_draw_copy; try assumption; lia].
    + intros b <-. split; [apply zero_buf_wf; lia|reflexivity].
    + cbn beta. intros _ b Hcopy. exact Hcopy.
  - eapply triple_weaken; [| |apply triple_first_pass; eassumption].
    + intros b (Hwf & Hr & Hcp). split; [assumption|]. split; [assumption|].
      split; [intros _; rewrite <- (stored_drawn img c0 Hch); exact (Hcp _ _ c0 Hin0 Hc0)
             |intros ?; lia].
    + cbn beta. intros _ b Hb'. exact Hb'.
  - exists (length h), (h ++ [b']). split; [exact Hrun|].
    rewrite RGBA_At_fresh, Hafter; [reflexivity|]. unfold Dy in Hh. lia.
Qed.

Lemma Dither_first_pixel_witness :
  img_ok [] grey_3x2 ∧ forward_kernel FloydSteinberg ∧
  Image_Bounds grey_3x2 [] = Some (mkRectangle (mkPoint 0 0) (mkPoint 3 2), []) ∧
  0 < Dx (mkRectangle (mkPoint 0 0) (mkPoint 3 2)) ∧
  0 < Dy (mkRectangle (mkPoint 0 0) (mkPoint 3 2)) ∧
  Image_At grey_3x2 0 0 [] = Some (color_RGBA 100 100 100 255, []) ∧
  channels16 (color_RGBA 100 100 100 255) = true ∧
  ∃ q h',
    Dither grey_3x2 FloydSteinberg BlackAndWhitePalette [] = Some (q, h') ∧
    RGBA_At q 0 0 h' =
      Some (stored (BlackAndWhitePalette (stored (color_RGBA 100 100 100 255))), h').
Proof.
  assert (Hw : 0 < Dx (mkRectangle (mkPoint 0 0) (mkPoint 3 2))) by (unfold Dx; cbn; lia).
  assert (Hh : 0 < Dy (mkRectangle (mkPoint 0 0) (mkPoint 3 2))) by (unfold Dy; cbn; lia).
  split; [exact grey_3x2_ok|]. split; [exact FloydSteinberg_forward|].
  split; [reflexivity|]. split; [exact Hw|]. split; [exact Hh|]. split; [reflexivity|].
  split; [reflexivity|].
  exact (Dither_first_pixel grey_3x2 FloydSteinberg BlackAndWhitePalette []
           (mkRectangle (mkPoint 0 0) (mkPoint 3 2)) (color_RGBA 100 100 100 255)
           grey_3x2_ok FloydSteinberg_forward eq_refl Hw Hh eq_refl eq_refl).
Defined.

(** ** Neighbour adjustment of opaque pixels *)

Lemma stored_spec_weighted_opaque r g b err weight shift :
  is_rgba8 (color_RGBA r g b 255) = true → A err = 0 → 0 ≤ shift →
  stored (spec_weighted (color_RGBA r g b 255) err weight shift) =
    color_RGBA (clamp (257 * r + R err * weight / 2 ^ shift) 0 65535 / 256)
               (clamp (257 * g + G err * weight / 2 ^ shift) 0 65535 / 256)
               (clamp (257 * b + B err * weight / 2 ^ shift) 0 65535 / 256) 255.
Proof.
  intros H8 HA Hs. destruct (RGBA_rgba8 r g b 255 H8) as (E & Hr & Hg & Hb & _).
  unfold spec_weighted. rewrite E, HA, Z.mul_0_l, Z.shiftr_0_l, Z.add_0_r.
  rewrite !Z.shiftr_div_pow2 by lia. rewrite makeColor_max_min, !clamp_16.
  change (257 * 255) with 65535. change (Z.max 0 (Z.min 65535 65535)) with 65535.
  rewrite stored_NRGBA64 by lia. rewrite !Z.div_mul by lia. reflexivity.
Qed.

(** X6.  On an opaque pixel, an error without alpha component adjusts
    each colour channel to the high byte of the clamped sum of the 16-bit
    channel and the share, and leaves the pixel opaque; the share is
    [error * mul / 16] for the four-neighbour kernel and
    [error * 2^mul / 32] for the seven-neighbour kernel. *)
Theorem adjust_opaque r g b err mul :
  is_rgba8 (color_RGBA r g b 255) = true → err_in_range err → A err = 0 →
  (0 ≤ mul ≤ 7 →
   stored (applyWeightsFloydSteinber (color_RGBA r g b 255) err mul) =
     color_RGBA (clamp (257 * r + R err * mul / 16) 0 65535 / 256)
                (clamp (257 * g + G err * mul / 16) 0 65535 / 256)
                (clamp (257 * b + B err * mul / 16) 0 65535 / 256) 255) ∧
  (0 ≤ mul ≤ 3 →
   stored (applyWeightsBurkes (color_RGBA r g b 255) err mul) =
     color_RGBA (clamp (257 * r + R err * 2 ^ mul / 32) 0 65535 / 256)
                (clamp (257 * g + G err * 2 ^ mul / 32) 0 65535 / 256)
                (clamp (257 * b + B err * 2 ^ mul / 32) 0 65535 / 256) 255).
Proof.
  intros H8 Herr HA. split; intros Hm.
  - rewrite applyWeightsFloydSteinber_spec by assumption.
    rewrite stored_spec_weighted_opaque by (assumption || lia). reflexivity.
  - rewrite applyWeightsBurkes_spec by assumption.
    rewrite stored_spec_weighted_opaque by (assumption || lia). reflexivity.
Qed.

Lemma adjust_opaque_witness :
  is_rgba8 (color_RGBA 100 100 250 255) = true ∧
  err_in_range (mkRGBAVec 25700 (-40000) 25700 0) ∧
  A (mkRGBAVec 25700 (-40000) 25700 0) = 0 ∧
  (0 ≤ 3 ≤ 7 →
   stored (applyWeightsFloydSteinber (color_RGBA 100 100 250 255)
             (mkRGBAVec 25700 (-40000) 25700 0) 3) =
     color_RGBA (clamp (257 * 100 + R (mkRGBAVec 25700 (-40000) 25700 0) * 3 / 16) 0 65535 / 256)
                (clamp (257 * 100 + G (mkRGBAVec 25700 (-40000) 25700 0) * 3 / 16) 0 65535 / 256)
                (clamp (257 * 250 + B (mkRGBAVec 25700 (-40000) 25700 0) * 3 / 16) 0 65535 / 256)
                255) ∧
  (0 ≤ 3 ≤ 3 →
   stored (applyWeightsBurkes (color_RGBA 100 100 250 255)
             (mkRGBAVec 25700 (-40000) 25700 0) 3) =
     color_RGBA (clamp (257 * 100 + R (mkRGBAVec 25700 (-40000) 25700 0) * 2 ^ 3 / 32) 0 65535 / 256)
                (clamp (257 * 100 + G (mkRGBAVec 25700 (-40000) 25700 0) * 2 ^ 3 / 32) 0 65535 / 256)
                (clamp (257 * 250 + B (mkRGBAVec 25700 (-40000) 25700 0) * 2 ^ 3 / 32) 0 65535 / 256)
                255).
Proof.
  assert (H : err_in_range (mkRGBAVec 25700 (-40000) 25700 0))
    by (unfold err_in_range; cbn [R G B A]; lia).
  split; [reflexivity|]. split; [exact H|]. split; [reflexivity|].
  exact (adjust_opaque 100 100 250 (mkRGBAVec 25700 (-40000) 25700 0) 3 eq_refl H eq_refl).
Defined.

(** ** Rectangles too large to allocate *)

Lemma int64_high z : 2 ^ 63 ≤ z < 2 ^ 64 → int64 z = z - 2 ^ 64.
Proof.
  intros Hz. unfold int64.
  replace (z + 2 ^ 63) with (z - 2 ^ 63 + 1 * 2 ^ 64) by ring.
  rewrite Z_mod_plus_full, Z.mod_small by lia. ring.
Qed.

(** [mul3NonNeg] reports a product that does not fit in [int]. *)
Lemma mul3NonNeg_huge w h :
  0 ≤ w < 2 ^ 63 → 0 ≤ h < 2 ^ 63 → 2 ^ 63 ≤ 4 * w * h → mul3NonNeg 4 w h = -1.
Proof.
  intros Hw Hh Hbig. unfold mul3NonNeg.
  destruct (Z.ltb_spec w 0); [lia|]. destruct (Z.ltb_spec h 0); [lia|].
  cbn [orb Z.ltb Z.compare]. cbv zeta.
  rewrite (uint64_small 4), (uint64_small w), (uint64_small h) by lia.
  destruct (Z.eqb_spec (4 * w / 2 ^ 64) 0) as [E1|]; [|reflexivity]. cbn [negb].
  apply Z.div_small_iff in E1; [|lia].
  rewrite (uint64_small (4 * w)) by lia.
  destruct (Z.eqb_spec (4 * w * h / 2 ^ 64) 0) as [E2|]; [|reflexivity]. cbn [negb].
  apply Z.div_small_iff in E2; [|lia].
  rewrite (uint64_small (4 * w * h)) by lia.
  rewrite int64_high by lia.
  destruct (Z.ltb_spec (4 * w * h - 2 ^ 64) 0); [reflexivity|lia].
Qed.

(** X15.  On a source whose rectangle is well-formed but whose buffer
    length [4 * Dx * Dy] does not fit in [int], [Dither] panics, whatever
    the kernel and the strategy: [image.NewRGBA] refuses the rectangle
    before any pixel is read. *)
Theorem Dither_huge_panics r f algo find (h : Heap) :
  0 ≤ Dx r < 2 ^ 63 → 0 ≤ Dy r < 2 ^ 63 → 2 ^ 63 ≤ 4 * Dx r * Dy r →
  NewRGBA r h = None ∧ Dither (Image_Func r f) algo find h = None.
Proof.
  intros Hw Hh Hbig.
  assert (E : NewRGBA r h = None).
  { unfold NewRGBA, pixelBufferLength. rewrite bind_run, (mul3NonNeg_huge _ _ Hw Hh Hbig).
    reflexivity. }
  split; [exact E|].
  unfold Dither. rewrite bind_run. cbn [Image_Bounds]. unfold mret, M_ret. cbn beta iota.
  rewrite bind_run, E. reflexivity.
Qed.

Lemma Dither_huge_panics_witness :
  0 ≤ Dx (mkRectangle (mkPoint (-1000000000) (-1000000000))
                      (mkPoint 1000000000 1000000000)) < 2 ^ 63 ∧
  0 ≤ Dy (mkRectangle (mkPoint (-1000000000) (-1000000000))
                      (mkPoint 1000000000 1000000000)) < 2 ^ 63 ∧
  2 ^ 63 ≤ 4 * Dx (mkRectangle (mkPoint (-1000000000) (-1000000000))
                               (mkPoint 1000000000 1000000000))
             * Dy (mkRectangle (mkPoint (-1000000000) (-1000000000))
                               (mkPoint 1000000000 1000000000)) ∧
  NewRGBA (mkRectangle (mkPoint (-1000000000) (-1000000000))
                       (mkPoint 1000000000 1000000000)) [] = None ∧
  Dither (Image_Func (mkRectangle (mkPoint (-1000000000) (-1000000000))
                                  (mkPoint 1000000000 1000000000))
                     (λ _ _, color_Gray16 0xffff))
         Burkes BlackAndWhitePalette [] = None.
Proof.
  assert (Hw : 0 ≤ Dx (mkRectangle (mkPoint (-1000000000) (-1000000000))
                                   (mkPoint 1000000000 1000000000)) < 2 ^ 63)
    by (unfold Dx; cbn; lia).
  assert (Hh : 0 ≤ Dy (mkRectangle (mkPoint (-1000000000) (-1000000000))
                                   (mkPoint 1000000000 1000000000)) < 2 ^ 63)
    by (unfold Dy; cbn; lia).
  assert (Hbig : 2 ^ 63 ≤ 4 * Dx (mkRectangle (mkPoint (-1000000000) (-1000000000))
                                              (mkPoint 1000000000 1000000000))
                            * Dy (mkRectangle (mkPoint (-1000000000) (-1000000000))
                                              (mkPoint 1000000000 1000000000)))
    by (unfold Dx, Dy; cbn; lia).
  split; [exact Hw|]. split; [exact Hh|]. split; [exact Hbig|].
  exact (Dither_huge_panics _ (λ _ _, color_Gray16 0xffff) Burkes BlackAndWhitePalette []
           Hw Hh Hbig).
Defined.
